(** * Property-listing backend: record store, search evaluator and image
      ingestion

    A shallow embedding of [storage.js], [imageHandler.js] and the
    handlers [addProperty], [getProperty], [updatePropertyById] and
    [deletePropertyById] of [propertyController.js], followed by the
    properties of these functions.

    Conventions of the embedding.
    - A JavaScript object used as an open mapping (a property record, the
      validated request body) is a [gmap string Value]; object spread
      [{...a, ...b}] is the union [b ∪ a] (stdpp's union is left-biased) and
      a trailing [k: v] is an insert.
    - Numbers are integers ([Z]); strings are sequences of ASCII characters.
    - Everything outside the repository that the code consults (the system
      clock, the two random sources, faults of the disk, three Node library
      functions) is gathered in an environment [Env]; the mutable world (the
      durable file, directories, written image files, the console) is a
      record [World] threaded through a state-and-exception monad.
    - The durable file is absent, unparsable, or parses to an array of
      objects, which is all the program itself ever writes; a file that
      parses to other JSON is outside the worlds considered.
    - A raised exception is represented by its [message]. *)

From Stdlib Require Import ZArith List Ascii String Bool Lia.
From stdpp Require Import base option list gmap strings pretty.

Local Open Scope string_scope.
Local Open Scope Z_scope.

(** ** JSON values and records *)

#[warnings="-register-all"]
Inductive Value : Type :=
| VNull
| VBool (b : bool)
| VNum (n : Z)
| VStr (s : string)
| VArr (items : list Value)
| VObj (fields : list (string * Value)).

(** A property record as persisted: an open mapping from keys to values. *)
Abbreviation Property := (gmap string Value).

(** ** Strings *)

Definition lower_ascii (c : ascii) : ascii :=
  let n := nat_of_ascii c in
  if ((65 <=? n)%nat && (n <=? 90)%nat)%bool then ascii_of_nat (n + 32) else c.

(** [String.prototype.toLowerCase] on ASCII text. *)
Fixpoint toLowerCase (s : string) : string :=
  match s with
  | EmptyString => EmptyString
  | String c r => String (lower_ascii c) (toLowerCase r)
  end.

(** [hay.startsWith(p)]. *)
Fixpoint startsWith (p hay : string) : bool :=
  match p, hay with
  | EmptyString, _ => true
  | String a p', String b hay' => if Ascii.eqb a b then startsWith p' hay' else false
  | String _ _, EmptyString => false
  end.

(** [hay.includes(needle)]. *)
Fixpoint includes (hay needle : string) : bool :=
  if startsWith needle hay then true
  else match hay with
       | EmptyString => false
       | String _ hay' => includes hay' needle
       end.

Fixpoint zeros (k : nat) : string :=
  match k with O => EmptyString | S k' => String "0" (zeros k') end.

(** Decimal rendering of a non-negative integer, left-padded with zeros. *)
Definition pad (width : nat) (n : Z) : string :=
  let s := pretty n in zeros (width - String.length s) +:+ s.

(** [new Date(ms).toISOString()]: the proleptic Gregorian calendar date and
    UTC time of the instant [ms] milliseconds after the epoch. *)
Definition toISOString (ms : Z) : string :=
  let days := ms / 86400000 in
  let rest := ms mod 86400000 in
  let z := days + 719468 in
  let era := z / 146097 in
  let doe := z - era * 146097 in
  let yoe := (doe - doe / 1460 + doe / 36524 - doe / 146096) / 365 in
  let doy := doe - (365 * yoe + yoe / 4 - yoe / 100) in
  let mp := (5 * doy + 2) / 153 in
  let d := doy - (153 * mp + 2) / 5 + 1 in
  let m := if mp <? 10 then mp + 3 else mp - 9 in
  let y := yoe + era * 400 + (if m <=? 2 then 1 else 0) in
  let year :=
    if ((0 <=? y) && (y <=? 9999))%bool then pad 4 y
    else (if y <? 0 then "-" else "+") +:+ pad 6 (Z.abs y) in
  year +:+ "-" +:+ pad 2 m +:+ "-" +:+ pad 2 d +:+ "T"
    +:+ pad 2 (rest / 3600000) +:+ ":" +:+ pad 2 (rest / 60000 mod 60) +:+ ":"
    +:+ pad 2 (rest / 1000 mod 60) +:+ "." +:+ pad 3 (rest mod 1000) +:+ "Z".

(** *** Coercion to numbers

    The relational operators of the search evaluator compare a field of a
    stored record with a numeric threshold, so the field goes through
    JavaScript's [ToNumber].  [None] stands for [NaN].  Numeric strings are
    read in plain decimal integer form only (optional sign, surrounding white
    space).  JavaScript also reads other spellings (["12.5"], ["1e3"],
    ["0x10"], ["Infinity"]) as numbers, which have no counterpart among the
    integers, and rounds integers beyond 2^53: on such fields [to_number] does
    not follow the code, and the statements below that depend on the number
    read off a field of text exclude them ([reads_as_integer]). *)

Definition is_ws (c : ascii) : bool :=
  let n := nat_of_ascii c in
  ((9 <=? n)%nat && (n <=? 13)%nat)%bool || (n =? 32)%nat.

Fixpoint trim_left (s : string) : string :=
  match s with
  | String c r => if is_ws c then trim_left r else s
  | EmptyString => EmptyString
  end.

Definition trim (s : string) : string :=
  String.rev (trim_left (String.rev (trim_left s))).

Fixpoint digits_value (acc : Z) (s : string) : option Z :=
  match s with
  | EmptyString => Some acc
  | String c r =>
      match Ascii.is_nat c with
      | Some d => digits_value (10 * acc + Z.of_nat d) r
      | None => None
      end
  end.

Definition string_to_number (s : string) : option Z :=
  match trim s with
  | EmptyString => Some 0
  | String "+" (String _ _ as r) => digits_value 0 r
  | String "-" (String _ _ as r) => Z.opp <$> digits_value 0 r
  | r => digits_value 0 r
  end.

(** [String(v)], with [Array.prototype.join] for arrays. *)
Fixpoint to_js_string (v : Value) : string :=
  match v with
  | VNull => "null"
  | VBool b => if b then "true" else "false"
  | VNum n => pretty n
  | VStr s => s
  | VArr items =>
      (fix join (l : list Value) : string :=
         match l with
         | [] => ""
         | x :: l' =>
             let e := match x with VNull => "" | _ => to_js_string x end in
             match l' with [] => e | _ :: _ => e +:+ "," +:+ join l' end
         end) items
  | VObj _ => "[object Object]"
  end.

(** [ToNumber] of a field read from a record ([None]: the key is absent, the
    read yields [undefined]). *)
Definition to_number (field : option Value) : option Z :=
  match field with
  | None => None
  | Some VNull => Some 0
  | Some (VBool b) => Some (if b then 1 else 0)
  | Some (VNum n) => Some n
  | Some (VStr s) => string_to_number s
  | Some (VArr items) => string_to_number (to_js_string (VArr items))
  | Some (VObj _) => None
  end.

(** [field >= bound] and [field <= bound] for a numeric [bound]. *)
Definition js_ge (field : option Value) (bound : Z) : bool :=
  match to_number field with Some n => bound <=? n | None => false end.

Definition js_le (field : option Value) (bound : Z) : bool :=
  match to_number field with Some n => n <=? bound | None => false end.

(** [prop.id === id] for a string [id]. *)
Definition has_id (id : string) (prop : Property) : bool :=
  match prop !! "id" with
  | Some (VStr s) => String.eqb s id
  | _ => false
  end.

(** ** The environment and the world *)

(** What a [writeFileSync] that throws leaves of the file it was writing.
    The call opens the file with truncation and then writes the data: a
    fault at the open leaves the file as it was, or absent; a fault at the
    write stage leaves a file with the bytes written so far, possibly none,
    in place of the previous content. *)
Inductive Damage : Type :=
| Untouched
| Torn (remains : string).

(** What the code reads from outside the repository.  Each stream is indexed
    by the number of earlier reads of the same source. *)
Record Env : Type := {
  time_at : nat → Z;
    (* the k-th reading of the system clock, in milliseconds since the epoch *)
  suffix_at : nat → string;
    (* the k-th [Math.random().toString(36).substr(2, 9)] *)
  hex_at : nat → string;
    (* the k-th [crypto.randomBytes(8).toString('hex')] *)
  fault_at : nat → option string;
    (* the k-th [mkdirSync] or [writeFileSync]: [Some msg] when it throws *)
  damage_at : nat → Damage;
    (* what the k-th call, when it is a [writeFileSync] that throws, leaves
       of the file *)
  json_error : string → string;
    (* the message of the [SyntaxError] of [JSON.parse] on a text that is
       not JSON *)
  extname : string → string;
    (* Node's [path.extname] *)
  path_join : string → string → string;
    (* Node's [path.join] of two segments *)
  base64_decode : string → string
    (* the bytes of [Buffer.from(s, 'base64')] *)
}.

(** The durable file [data/properties.json].  Its text is not modelled: an
    array of records comes back unchanged from [JSON.stringify] followed by
    [JSON.parse].  A file that parses to JSON of another shape (an object,
    [null], an array holding [null]), on which [find], [filter] and [push]
    raise a [TypeError] in the code, is not among the states. *)
Inductive FileState : Type :=
| Absent
| Stored (properties : list Property)
    (* the file parses to this array of records, as [writeProperties] wrote it *)
| Unreadable (reason : string).
    (* the file exists, [readFileSync] or [JSON.parse] throws an error with
       the message [reason]; a truncated file is of this kind, since no
       proper prefix of the text of a JSON array is JSON *)

Inductive LogEntry : Type :=
| LogInfo (message : string)
| LogError (message detail : string).

Record World : Type := {
  dirs : gset string;            (* directories that exist *)
  file : FileState;              (* the durable collection *)
  uploads : gmap string string;  (* image files written, by path *)
  ticks : nat;                   (* clock readings so far *)
  rolls : nat;                   (* [Math.random] draws so far *)
  hexes : nat;                   (* [crypto.randomBytes] draws so far *)
  fs_calls : nat;                (* [mkdirSync] and [writeFileSync] calls so far *)
  console : list LogEntry
}.

Definition DATA_DIR : string := "data".

(** The [filters] object of [searchProperties]; [None] is an absent key. *)
Record Filters : Type := {
  propertyType : option string;
  location : option string;
  minPrice : option Z;
  maxPrice : option Z;
  beds : option Z;
  baths : option Z
}.

(** ** A state monad with exceptions *)

Inductive Outcome (A : Type) : Type :=
| Ok (a : A)
| Throw (message : string).
Arguments Ok {A} a.
Arguments Throw {A} message.

Definition M (A : Type) : Type := World → Outcome A * World.

Definition ret {A} (a : A) : M A := λ w, (Ok a, w).

Definition throw {A} (message : string) : M A := λ w, (Throw message, w).

Definition bind {A B} (m : M A) (k : A → M B) : M B :=
  λ w, match m w with
       | (Ok a, w') => k a w'
       | (Throw e, w') => (Throw e, w')
       end.

(** [try { m } catch (error) { handler(error.message) }]. *)
Definition try_catch {A} (m : M A) (handler : string → M A) : M A :=
  λ w, match m w with
       | (Ok a, w') => (Ok a, w')
       | (Throw e, w') => handler e w'
       end.

Notation "'let!' x ':=' m 'in' k" := (bind m (λ x, k))
  (at level 10, x name, m at level 100, k at level 200).
Notation "'do!' m 'in' k" := (bind m (λ _, k))
  (at level 10, m at level 100, k at level 200).

(** *** Updates of single fields of the world *)

Definition set_dirs (d : gset string) (w : World) : World :=
  {| dirs := d; file := file w; uploads := uploads w; ticks := ticks w; rolls := rolls w;
     hexes := hexes w; fs_calls := fs_calls w; console := console w |}.

Definition set_file (f : FileState) (w : World) : World :=
  {| dirs := dirs w; file := f; uploads := uploads w; ticks := ticks w; rolls := rolls w;
     hexes := hexes w; fs_calls := fs_calls w; console := console w |}.

Definition set_uploads (u : gmap string string) (w : World) : World :=
  {| dirs := dirs w; file := file w; uploads := u; ticks := ticks w; rolls := rolls w;
     hexes := hexes w; fs_calls := fs_calls w; console := console w |}.

Definition tick (w : World) : World :=
  {| dirs := dirs w; file := file w; uploads := uploads w; ticks := S (ticks w);
     rolls := rolls w; hexes := hexes w; fs_calls := fs_calls w; console := console w |}.

Definition roll (w : World) : World :=
  {| dirs := dirs w; file := file w; uploads := uploads w; ticks := ticks w;
     rolls := S (rolls w); hexes := hexes w; fs_calls := fs_calls w; console := console w |}.

Definition hex (w : World) : World :=
  {| dirs := dirs w; file := file w; uploads := uploads w; ticks := ticks w;
     rolls := rolls w; hexes := S (hexes w); fs_calls := fs_calls w; console := console w |}.

Definition fs_call (w : World) : World :=
  {| dirs := dirs w; file := file w; uploads := uploads w; ticks := ticks w;
     rolls := rolls w; hexes := hexes w; fs_calls := S (fs_calls w); console := console w |}.

Definition log (entry : LogEntry) (w : World) : World :=
  {| dirs := dirs w; file := file w; uploads := uploads w; ticks := ticks w;
     rolls := rolls w; hexes := hexes w; fs_calls := fs_calls w;
     console := console w ++ [entry] |}.

(** *** Primitive effects *)

Section Primitives.
Context (E : Env).

(** [Date.now()], and the instant of [new Date()]. *)
Definition Date_now : M Z := λ w, (Ok (time_at E (ticks w)), tick w).

Definition Math_random_suffix : M string := λ w, (Ok (suffix_at E (rolls w)), roll w).

Definition randomBytes_hex : M string := λ w, (Ok (hex_at E (hexes w)), hex w).

Definition existsSync_dir (d : string) : M bool := λ w, (Ok (bool_decide (d ∈ dirs w)), w).

Definition mkdirSync (d : string) : M unit := λ w,
  match fault_at E (fs_calls w) with
  | Some e => (Throw e, fs_call w)
  | None => (Ok tt, set_dirs ({[d]} ∪ dirs w) (fs_call w))
  end.

(** [fs.writeFileSync(PROPERTIES_FILE, JSON.stringify(properties))].  A
    write that throws after the file was opened leaves a truncated file,
    which no longer parses. *)
Definition writeFileSync_properties (properties : list Property) : M unit := λ w,
  match fault_at E (fs_calls w) with
  | Some e =>
      (Throw e,
       match damage_at E (fs_calls w) with
       | Untouched => fs_call w
       | Torn remains => set_file (Unreadable (json_error E remains)) (fs_call w)
       end)
  | None => (Ok tt, set_file (Stored properties) (fs_call w))
  end.

(** [fs.writeFileSync(filepath, imageBuffer)].  A write that throws after
    the file was opened leaves the bytes written so far at [filepath]. *)
Definition writeFileSync_image (filepath bytes : string) : M unit := λ w,
  match fault_at E (fs_calls w) with
  | Some e =>
      (Throw e,
       match damage_at E (fs_calls w) with
       | Untouched => fs_call w
       | Torn remains => set_uploads (<[filepath := remains]> (uploads w)) (fs_call w)
       end)
  | None => (Ok tt, set_uploads (<[filepath := bytes]> (uploads w)) (fs_call w))
  end.

(** [JSON.parse(fs.readFileSync(PROPERTIES_FILE, 'utf8'))]. *)
Definition readFileSync_properties : M (list Property) := λ w,
  match file w with
  | Stored properties => (Ok properties, w)
  | Unreadable reason => (Throw reason, w)
  | Absent => (Throw "ENOENT: no such file or directory", w)
  end.

Definition existsSync_properties : M bool := λ w,
  (Ok (match file w with Absent => false | _ => true end), w).

(** [console.log] and [console.error]. *)
Definition console_emit (entry : LogEntry) : M unit := λ w, (Ok tt, log entry w).

(** ** storage.js *)

Definition ensureDataDir : M unit :=
  let! present := existsSync_dir DATA_DIR in
  if present then ret tt else mkdirSync DATA_DIR.

Definition readProperties : M (list Property) :=
  try_catch
    (do! ensureDataDir in
     let! present := existsSync_properties in
     if present then readFileSync_properties else ret [])
    (λ error,
       do! console_emit (LogError "Error reading properties:" error) in
       ret []).

Definition writeProperties (properties : list Property) : M bool :=
  try_catch
    (do! ensureDataDir in
     do! writeFileSync_properties properties in
     ret true)
    (λ error,
       do! console_emit (LogError "Error writing properties:" error) in
       ret false).

Definition saveProperty (propertyData : Property) : M Property :=
  let! properties := readProperties in
  let! now := Date_now in
  let! suffix := Math_random_suffix in
  let propertyId := "PROP_" +:+ pretty now +:+ "_" +:+ suffix in
  let! created := Date_now in
  let! updated := Date_now in
  let newProperty : Property :=
    <["updatedAt" := VStr (toISOString updated)]>
      (<["createdAt" := VStr (toISOString created)]>
         (propertyData ∪ {["id" := VStr propertyId]})) in
  let! saved := writeProperties (properties ++ [newProperty]) in
  if saved then ret newProperty else throw "Failed to save property".

Definition getAllProperties : M (list Property) := readProperties.

Definition getPropertyById (id : string) : M (option Property) :=
  let! properties := readProperties in
  ret (List.find (has_id id) properties).

Definition updateProperty (id : string) (updateData : Property) : M (option Property) :=
  let! properties := readProperties in
  match list_find (λ prop, has_id id prop = true) properties with
  | None => ret None
  | Some (index, existing) =>
      let! now := Date_now in
      let merged : Property :=
        <["updatedAt" := VStr (toISOString now)]> (updateData ∪ existing) in
      let properties := <[index := merged]> properties in
      let! saved := writeProperties properties in
      if saved then ret (properties !! index) else throw "Failed to update property"
  end.

Definition deleteProperty (id : string) : M bool :=
  let! properties := readProperties in
  let filteredProperties := List.filter (λ prop, negb (has_id id prop)) properties in
  if (length filteredProperties =? length properties)%nat then ret false
  else writeProperties filteredProperties.

(** *** The search evaluator *)

(** [properties.filter(callback)] for a callback that may throw. *)
Fixpoint filter_throwing (callback : Property → Outcome bool) (properties : list Property)
  : Outcome (list Property) :=
  match properties with
  | [] => Ok []
  | prop :: rest =>
      match callback prop with
      | Throw e => Throw e
      | Ok keep =>
          match filter_throwing callback rest with
          | Throw e => Throw e
          | Ok kept => Ok (if keep then prop :: kept else kept)
          end
      end
  end.

Definition lift {A} (o : Outcome A) : M A := λ w, (o, w).

(** [prop.<key>.toLowerCase().includes(query.toLowerCase())]: reading
    [toLowerCase] off [undefined] or [null] is a [TypeError], and so is
    calling it on a value that is not a string. *)
Definition field_includes (key query : string) (prop : Property) : Outcome bool :=
  match prop !! key with
  | Some (VStr s) => Ok (includes (toLowerCase s) (toLowerCase query))
  | Some VNull => Throw "Cannot read properties of null (reading 'toLowerCase')"
  | Some _ => Throw ("prop." +:+ key +:+ ".toLowerCase is not a function")
  | None => Throw "Cannot read properties of undefined (reading 'toLowerCase')"
  end.

Definition truthy_string (o : option string) : option string :=
  match o with
  | Some EmptyString | None => None
  | Some s => Some s
  end.

Definition truthy_number (o : option Z) : option Z :=
  match o with
  | Some 0 | None => None
  | Some n => Some n
  end.

Definition searchProperties (filters : Filters) : M (list Property) :=
  let! properties := readProperties in
  let! properties :=
    match truthy_string (propertyType filters) with
    | Some query => lift (filter_throwing (field_includes "propertyType" query) properties)
    | None => ret properties
    end in
  let! properties :=
    match truthy_string (location filters) with
    | Some query => lift (filter_throwing (field_includes "location" query) properties)
    | None => ret properties
    end in
  let properties :=
    match truthy_number (minPrice filters) with
    | Some bound => List.filter (λ prop, js_ge (prop !! "price") bound) properties
    | None => properties
    end in
  let properties :=
    match truthy_number (maxPrice filters) with
    | Some bound => List.filter (λ prop, js_le (prop !! "price") bound) properties
    | None => properties
    end in
  let properties :=
    match truthy_number (beds filters) with
    | Some bound => List.filter (λ prop, js_ge (prop !! "beds") bound) properties
    | None => properties
    end in
  let properties :=
    match truthy_number (baths filters) with
    | Some bound => List.filter (λ prop, js_ge (prop !! "baths") bound) properties
    | None => properties
    end in
  ret properties.

End Primitives.

(** ** imageHandler.js *)

(** One submitted image payload; [None] is an absent field. *)
Module ImageData.
Record t : Type := {
  name : option string;
  type : option string;
  data : option string;
  size : option Z
}.
End ImageData.

(** The result of [validateImageData]. *)
Module Validation.
Record t : Type := { isValid : bool; errors : list string }.
End Validation.

(** The object [processImage] resolves to. *)
Inductive ImageResult : Type :=
| Saved (filename filepath : string) (size : Z) (originalName : string)
    (* [{success: true, filename, filepath, size, originalName}] *)
| Rejected (errors : list string)
    (* [{success: false, errors}] *)
| Crashed (error : string).
    (* [{success: false, error}] *)

(** An entry of [processedImages]. *)
Module Processed.
Record t : Type := {
  index : nat;
  filename : string;
  filepath : string;
  size : Z;
  originalName : string
}.
End Processed.

(** An entry of the batch's [errors]. *)
Module ImageError.
Record t : Type := {
  index : nat;
  originalName : option string;
  errors : list string
}.
End ImageError.

(** The object [processImages] resolves to. *)
Module Batch.
Record t : Type := {
  success : bool;
  processedImages : list Processed.t;
  errors : list ImageError.t
}.
End Batch.

Definition ALLOWED_TYPES : list string :=
  ["image/jpeg"; "image/jpg"; "image/png"; "image/webp"].

Definition MAX_IMAGE_SIZE : Z := 10 * 1024 * 1024.

Definition string_in (s : string) (l : list string) : bool :=
  existsb (String.eqb s) l.

(** [/^data:image\/(jpeg|jpg|png|webp);base64,/.test(d)]. *)
Definition base64Regex_test (d : string) : bool :=
  startsWith "data:image/jpeg;base64," d
  || startsWith "data:image/jpg;base64," d
  || startsWith "data:image/png;base64," d
  || startsWith "data:image/webp;base64," d.

Definition push_if (condition : bool) (message : string) (errors : list string) : list string :=
  if condition then (errors ++ [message])%list else errors.

Definition validateImageData (imageData : ImageData.t) : Validation.t :=
  let errors : list string := [] in
  let errors :=
    match truthy_string (ImageData.name imageData) with
    | None => (errors ++ ["Image name is required"])%list
    | Some _ => errors
    end in
  let errors :=
    match truthy_string (ImageData.type imageData) with
    | None => (errors ++ ["Image type is required"])%list
    | Some t =>
        push_if (negb (string_in t ALLOWED_TYPES))
          "Invalid image type. Only JPEG, PNG, and WebP are allowed" errors
    end in
  let errors :=
    match truthy_string (ImageData.data imageData) with
    | None => (errors ++ ["Image data is required"])%list
    | Some d => push_if (negb (base64Regex_test d)) "Invalid base64 image data format" errors
    end in
  let errors :=
    match truthy_number (ImageData.size imageData) with
    | Some n => push_if (MAX_IMAGE_SIZE <? n) "Image size cannot exceed 10MB" errors
    | None => errors
    end in
  {| Validation.isValid := (length errors =? 0)%nat; Validation.errors := errors |}.

(** [mimeToExt[mimeType] || '.jpg'], for the own keys of [mimeToExt]. *)
Definition getExtensionFromMimeType (mimeType : string) : string :=
  if String.eqb mimeType "image/jpeg" then ".jpg"
  else if String.eqb mimeType "image/jpg" then ".jpg"
  else if String.eqb mimeType "image/png" then ".png"
  else if String.eqb mimeType "image/webp" then ".webp"
  else ".jpg".

Fixpoint strip_prefix (p s : string) : option string :=
  match p, s with
  | EmptyString, _ => Some s
  | String a p', String b s' => if Ascii.eqb a b then strip_prefix p' s' else None
  | String _ _, EmptyString => None
  end.

Definition is_lower (c : ascii) : bool :=
  let n := nat_of_ascii c in ((97 <=? n)%nat && (n <=? 122)%nat)%bool.

Fixpoint drop_lower (s : string) : string :=
  match s with
  | String c r => if is_lower c then drop_lower r else s
  | EmptyString => EmptyString
  end.

(** [d.replace(/^data:image\/[a-z]+;base64,/, '')].  The greedy [[a-z]+]
    stops at the first character that is not a lower-case letter, which must
    be the semicolon. *)
Definition strip_data_uri (d : string) : string :=
  match strip_prefix "data:image/" d with
  | Some r =>
      let r' := drop_lower r in
      if (String.length r' <? String.length r)%nat then
        match strip_prefix ";base64," r' with
        | Some payload => payload
        | None => d
        end
      else d
  | None => d
  end.

Definition UPLOAD_DIR : string := "uploads/images".

Section Ingestion.
Context (E : Env).

Definition generateUniqueFilename (originalName mimeType : string) : M string :=
  let! timestamp := Date_now E in
  let! randomString := randomBytes_hex E in
  let extension :=
    match extname E originalName with
    | EmptyString => getExtensionFromMimeType mimeType
    | e => e
    end in
  ret (pretty timestamp +:+ "_" +:+ randomString +:+ extension).

(** Past the validation the name, type and data of the payload are present,
    so the defaults below are never taken. *)
Definition processImage (imageData : ImageData.t) (uploadDir : string) : M ImageResult :=
  try_catch
    (let validation := validateImageData imageData in
     if negb (Validation.isValid validation) then
       ret (Rejected (Validation.errors validation))
     else
       let name := default "" (ImageData.name imageData) in
       let! present := existsSync_dir uploadDir in
       do! (if present then ret tt else mkdirSync E uploadDir) in
       let! filename :=
         generateUniqueFilename name (default "" (ImageData.type imageData)) in
       let filepath := path_join E uploadDir filename in
       let base64Data := strip_data_uri (default "" (ImageData.data imageData)) in
       let imageBuffer := base64_decode E base64Data in
       do! writeFileSync_image E filepath imageBuffer in
       ret (Saved filename filepath (Z.of_nat (String.length imageBuffer)) name))
    (λ error, ret (Crashed error)).

(** The [for] loop of [processImages], from index [i] on. *)
Fixpoint processImages_from (images : list ImageData.t) (uploadDir : string) (i : nat)
    (results : list Processed.t) (errors : list ImageError.t) : M Batch.t :=
  match images with
  | [] =>
      ret {| Batch.success := (length errors =? 0)%nat;
             Batch.processedImages := results;
             Batch.errors := errors |}
  | imageData :: rest =>
      let! result := processImage imageData uploadDir in
      match result with
      | Saved filename filepath size originalName =>
          processImages_from rest uploadDir (S i)
            (results ++ [{| Processed.index := i; Processed.filename := filename;
                            Processed.filepath := filepath; Processed.size := size;
                            Processed.originalName := originalName |}])
            errors
      | Rejected reasons =>
          processImages_from rest uploadDir (S i) results
            (errors ++ [{| ImageError.index := i;
                           ImageError.originalName := ImageData.name imageData;
                           ImageError.errors := reasons |}])
      | Crashed reason =>
          processImages_from rest uploadDir (S i) results
            (errors ++ [{| ImageError.index := i;
                           ImageError.originalName := ImageData.name imageData;
                           ImageError.errors := [reason] |}])
      end
  end.

Definition processImages (images : list ImageData.t) (uploadDir : string) : M Batch.t :=
  match images with
  | [] =>
      ret {| Batch.success := true; Batch.processedImages := []; Batch.errors := [] |}
  | _ :: _ => processImages_from images uploadDir 0 [] []
  end.

(** ** propertyController.js: [addProperty] *)

(** [req.validatedData]: the attributes of the listing and its images. *)
Record PropertyData : Type := {
  attributes : Property;
  images : option (list ImageData.t)
}.

Inductive Response : Type :=
| Created (savedProperty : Property) (processedImages : list Processed.t)
    (* [res.status(201).json({success: true, ...})] *)
| BadRequest (errors : list ImageError.t)
    (* [res.status(400).json({success: false, errors, ...})] *)
| ServerError (message : string).
    (* [next(new ApiError(message, 500))] *)

Definition image_metadata (img : Processed.t) : Value :=
  VObj [("filename", VStr (Processed.filename img));
        ("originalName", VStr (Processed.originalName img));
        ("size", VNum (Processed.size img));
        ("filepath", VStr (Processed.filepath img))].

Definition addProperty (propertyData : PropertyData) : M Response :=
  try_catch
    (do! console_emit (LogInfo "Property submission received:") in
     let save (processedImages : list Processed.t) : M Response :=
       let! savedProperty :=
         saveProperty E
           (<["images" := VArr (map image_metadata processedImages)]>
              (attributes propertyData)) in
       do! console_emit (LogInfo "Property saved with ID") in
       ret (Created savedProperty processedImages) in
     match images propertyData with
     | Some ((_ :: _) as submitted) =>
         do! console_emit (LogInfo "Processing images...") in
         let! imageResult := processImages submitted UPLOAD_DIR in
         if negb (Batch.success imageResult) then
           do! console_emit (LogError "Image processing errors:" "") in
           ret (BadRequest (Batch.errors imageResult))
         else
           do! console_emit (LogInfo "Successfully processed images") in
           save (Batch.processedImages imageResult)
     | _ => save []
     end)
    (λ err,
       do! console_emit (LogError "Error processing property:" err) in
       ret (ServerError ("Failed to process property submission: " +:+ err))).

End Ingestion.

(** ** propertyController.js: the handlers by id *)

(** What [getProperty], [updatePropertyById] and [deletePropertyById] answer. *)
Inductive Reply : Type :=
| Found (data : Property)
    (* [res.status(200).json({success: true, data})] of [getProperty] *)
| Updated (data : Property)
    (* [res.status(200).json({..., message: 'Property updated successfully', data})] *)
| Deleted
    (* [res.status(200).json({..., message: 'Property deleted successfully'})] *)
| NotFound
    (* [res.status(404).json({success: false, message: 'Property not found'})] *)
| Failed (message : string).
    (* [next(new ApiError(message, 500))] *)

Section Handlers.
Context (E : Env).

Definition getProperty (id : string) : M Reply :=
  try_catch
    (let! property := getPropertyById E id in
     match property with
     | None => ret NotFound
     | Some found => ret (Found found)
     end)
    (λ err, ret (Failed ("Failed to retrieve property: " +:+ err))).

Definition updatePropertyById (id : string) (updateData : Property) : M Reply :=
  try_catch
    (let! updatedProperty := updateProperty E id updateData in
     match updatedProperty with
     | None => ret NotFound
     | Some updated => ret (Updated updated)
     end)
    (λ err, ret (Failed ("Failed to update property: " +:+ err))).

Definition deletePropertyById (id : string) : M Reply :=
  try_catch
    (let! deleted := deleteProperty E id in
     if negb deleted then ret NotFound else ret Deleted)
    (λ err, ret (Failed ("Failed to delete property: " +:+ err))).

End Handlers.

(** ** Auxiliary definitions for the statements *)

(** *** Image batches *)

(** One item ingested: the result [processImage] resolves to and the world
    it leaves. *)
Definition ingest (E : Env) (imageData : ImageData.t) (uploadDir : string) (w : World)
  : ImageResult * World :=
  match processImage E imageData uploadDir w with
  | (Ok result, w') => (result, w')
  | (Throw e, w') => (Crashed e, w')
  end.

(** The items of a batch ingested one after the other in input order, each
    in the world its predecessor left. *)
Fixpoint ingest_each (E : Env) (images : list ImageData.t) (uploadDir : string) (w : World)
  : list ImageResult * World :=
  match images with
  | [] => ([], w)
  | imageData :: rest =>
      let (result, w1) := ingest E imageData uploadDir w in
      let (results, w2) := ingest_each E rest uploadDir w1 in
      (result :: results, w2)
  end.

Definition is_saved (r : ImageResult) : bool :=
  match r with Saved _ _ _ _ => true | _ => false end.

(** The reasons a failed item is reported with: [result.errors || [result.error]]. *)
Definition reasons (r : ImageResult) : list string :=
  match r with
  | Saved _ _ _ _ => []
  | Rejected errors => errors
  | Crashed error => [error]
  end.

(** The [processedImages] entries for results numbered from [i]. *)
Fixpoint processed_entries (i : nat) (results : list ImageResult) : list Processed.t :=
  match results with
  | [] => []
  | Saved filename filepath size originalName :: rest =>
      {| Processed.index := i; Processed.filename := filename; Processed.filepath := filepath;
         Processed.size := size; Processed.originalName := originalName |}
      :: processed_entries (S i) rest
  | _ :: rest => processed_entries (S i) rest
  end.

(** The [errors] entries for items and results numbered from [i]. *)
Fixpoint error_entries (i : nat) (images : list ImageData.t) (results : list ImageResult)
  : list ImageError.t :=
  match images, results with
  | imageData :: images', r :: rest =>
      if is_saved r then error_entries (S i) images' rest
      else {| ImageError.index := i; ImageError.originalName := ImageData.name imageData;
              ImageError.errors := reasons r |}
           :: error_entries (S i) images' rest
  | _, _ => []
  end.

(** *** The validation rules, as the specification words them *)

Definition name_present (img : ImageData.t) : Prop :=
  ∃ s, ImageData.name img = Some s ∧ s ≠ "".

Definition type_allowed (img : ImageData.t) : Prop :=
  ∃ t, ImageData.type img = Some t ∧
       (t = "image/jpeg" ∨ t = "image/jpg" ∨ t = "image/png" ∨ t = "image/webp").

Definition data_wellformed (img : ImageData.t) : Prop :=
  ∃ d kind payload,
    ImageData.data img = Some d ∧
    (kind = "jpeg" ∨ kind = "jpg" ∨ kind = "png" ∨ kind = "webp") ∧
    d = "data:image/" +:+ kind +:+ ";base64," +:+ payload.

Definition size_within (img : ImageData.t) : Prop :=
  ∀ n, ImageData.size img = Some n → n ≤ 10 * 1024 * 1024.

(** *** The collection a call works on *)

(** The collection [readProperties] hands to the operation that calls it,
    and the world it leaves. *)
Definition loaded (E : Env) (w : World) : list Property :=
  match readProperties E w with
  | (Ok properties, _) => properties
  | (Throw _, _) => []
  end.

Definition after_load (E : Env) (w : World) : World := (readProperties E w).2.

(** The records in the durable file. *)
Definition collection (w : World) : list Property :=
  match file w with
  | Stored properties => properties
  | Absent | Unreadable _ => []
  end.

(** *** The search criteria, as the specification words them *)

(** Case-insensitive substring match against a text field. *)
Definition matches_text (criterion : option string) (field : option Value) : bool :=
  match criterion with
  | None => true
  | Some query =>
      match field with
      | Some (VStr s) => includes (toLowerCase s) (toLowerCase query)
      | _ => false
      end
  end.

(** Inclusive lower bound on a numeric field. *)
Definition at_least (criterion : option Z) (field : option Value) : bool :=
  match criterion with
  | None => true
  | Some bound => match field with Some (VNum n) => bound <=? n | _ => false end
  end.

(** Inclusive upper bound on a numeric field. *)
Definition at_most (criterion : option Z) (field : option Value) : bool :=
  match criterion with
  | None => true
  | Some bound => match field with Some (VNum n) => n <=? bound | _ => false end
  end.

(** A record matches all supplied criteria. *)
Definition spec_matches (f : Filters) (prop : Property) : bool :=
  matches_text (propertyType f) (prop !! "propertyType")
  && matches_text (location f) (prop !! "location")
  && at_least (minPrice f) (prop !! "price")
  && at_most (maxPrice f) (prop !! "price")
  && at_least (beds f) (prop !! "beds")
  && at_least (baths f) (prop !! "baths").

(** The criteria the evaluator acts on: a criterion whose value is falsy
    (the number zero, the empty string) counts as not supplied. *)
Definition effective (f : Filters) : Filters :=
  {| propertyType := truthy_string (propertyType f);
     location := truthy_string (location f);
     minPrice := truthy_number (minPrice f);
     maxPrice := truthy_number (maxPrice f);
     beds := truthy_number (beds f);
     baths := truthy_number (baths f) |}.

Definition no_filters : Filters :=
  {| propertyType := None; location := None; minPrice := None; maxPrice := None;
     beds := None; baths := None |}.

(** A record with the fields the evaluator reads, typed as in the data
    model: text category and location, numeric price and counts. *)
Definition well_typed (prop : Property) : Prop :=
  (∃ s, prop !! "propertyType" = Some (VStr s)) ∧
  (∃ s, prop !! "location" = Some (VStr s)) ∧
  (∃ n, prop !! "price" = Some (VNum n)) ∧
  (∃ n, prop !! "beds" = Some (VNum n)) ∧
  (∃ n, prop !! "baths" = Some (VNum n)).

Definition with_minPrice (v : option Z) (f : Filters) : Filters :=
  {| propertyType := propertyType f; location := location f; minPrice := v;
     maxPrice := maxPrice f; beds := beds f; baths := baths f |}.

Definition with_maxPrice (v : option Z) (f : Filters) : Filters :=
  {| propertyType := propertyType f; location := location f; minPrice := minPrice f;
     maxPrice := v; beds := beds f; baths := baths f |}.

Definition with_beds (v : option Z) (f : Filters) : Filters :=
  {| propertyType := propertyType f; location := location f; minPrice := minPrice f;
     maxPrice := maxPrice f; beds := v; baths := baths f |}.

Definition with_baths (v : option Z) (f : Filters) : Filters :=
  {| propertyType := propertyType f; location := location f; minPrice := minPrice f;
     maxPrice := maxPrice f; beds := beds f; baths := v |}.

(** *** Timestamps *)

(** [a < b] for two ISO-8601 timestamps of equal length, which order as
    their instants do. *)
Definition timestamp_lt (a b : option Value) : Prop :=
  match a, b with
  | Some (VStr x), Some (VStr y) => String.ltb x y = true
  | _, _ => False
  end.

(** *** Sequences of store operations *)

(** The identifier [saveProperty] composes from a clock reading and a
    random suffix. *)
Definition property_id (now : Z) (suffix : string) : string :=
  "PROP_" +:+ pretty now +:+ "_" +:+ suffix.

(** The string [s] does not contain the character [c]. *)
Fixpoint free_of (c : ascii) (s : string) : bool :=
  match s with
  | EmptyString => true
  | String a r => negb (Ascii.eqb a c) && free_of c r
  end.

Definition id_of (prop : Property) : option Value := prop !! "id".

(** The record [saveProperty] builds in world [w]. *)
Definition new_record (E : Env) (propertyData : Property) (w : World) : Property :=
  <["updatedAt" := VStr (toISOString (time_at E (S (S (ticks w)))))]>
    (<["createdAt" := VStr (toISOString (time_at E (S (ticks w))))]>
       (propertyData
        ∪ {["id" := VStr (property_id (time_at E (ticks w)) (suffix_at E (rolls w)))]})).

(** The record [updateProperty] puts in place of [existing] in world [w]. *)
Definition merged_record (E : Env) (updateData existing : Property) (w : World) : Property :=
  <["updatedAt" := VStr (toISOString (time_at E (ticks w)))]> (updateData ∪ existing).

Inductive Op : Type :=
| Create (propertyData : Property)
| Update (id : string) (updateData : Property)
| Delete (id : string).

(** One operation: the record a successful create returns, and the world
    the operation leaves. *)
Definition exec (E : Env) (op : Op) (w : World) : option Property * World :=
  match op with
  | Create propertyData =>
      match saveProperty E propertyData w with
      | (Ok created, w') => (Some created, w')
      | (Throw _, w') => (None, w')
      end
  | Update id updateData => (None, (updateProperty E id updateData w).2)
  | Delete id => (None, (deleteProperty E id w).2)
  end.

(** A sequence of operations: the records created, in order, and the final
    world. *)
Fixpoint run (E : Env) (ops : list Op) (w : World) : list Property * World :=
  match ops with
  | [] => ([], w)
  | op :: rest =>
      let (created, w1) := exec E op w in
      let (more, w2) := run E rest w1 in
      (match created with Some r => r :: more | None => more end, w2)
  end.

(** The clock reading and random suffix each create of the sequence draws
    for its identifier. *)
Fixpoint draws (E : Env) (ops : list Op) (w : World) : list (Z * string) :=
  match ops with
  | [] => []
  | op :: rest =>
      let later := draws E rest (exec E op w).2 in
      match op with
      | Create _ => (time_at E (ticks w), suffix_at E (rolls w)) :: later
      | _ => later
      end
  end.

(** What a sequence of operations maintains, for the records [log] created
    so far from the draws [ds]: every created record carries the identifier
    composed from its draw, no identifier was issued twice, no two stored
    records share an identifier, and every stored record still carries the
    [id] and [createdAt] of the created record it stems from. *)
Definition store_invariant (log : list Property) (ds : list (Z * string)) (w : World) : Prop :=
  (∀ c, c ∈ log → ∃ t s, (t, s) ∈ ds ∧ c !! "id" = Some (VStr (property_id t s))) ∧
  NoDup (id_of <$> log) ∧
  NoDup (id_of <$> collection w) ∧
  (∀ r, r ∈ collection w →
     ∃ c, c ∈ log ∧ r !! "id" = c !! "id" ∧ r !! "createdAt" = c !! "createdAt").

(** The attribute map of an operation names neither [id] nor [createdAt]. *)
Definition leaves_identity (op : Op) : Prop :=
  match op with
  | Create attrs | Update _ attrs => attrs !! "id" = None ∧ attrs !! "createdAt" = None
  | Delete _ => True
  end.

(** *** The criteria of the evaluator, with JavaScript's coercions *)

(** The callback of a text filter, with a raise read as "no match". *)
Definition js_text (criterion : option string) (key : string) (prop : Property) : bool :=
  match truthy_string criterion with
  | None => true
  | Some query =>
      match field_includes key query prop with
      | Ok b => b
      | Throw _ => false
      end
  end.

Definition js_at_least (criterion : option Z) (key : string) (prop : Property) : bool :=
  match truthy_number criterion with
  | None => true
  | Some bound => js_ge (prop !! key) bound
  end.

Definition js_at_most (criterion : option Z) (key : string) (prop : Property) : bool :=
  match truthy_number criterion with
  | None => true
  | Some bound => js_le (prop !! key) bound
  end.

(** A field that the integer reading of [to_number] reads as JavaScript
    does: any value but an array or a string, or a string that spells a
    decimal integer of magnitude at most 2^53. *)
Definition reads_as_integer (field : option Value) : Prop :=
  match field with
  | Some (VStr s) => ∃ n, string_to_number s = Some n ∧ Z.abs n ≤ 2 ^ 53
  | Some (VArr _) => False
  | _ => True
  end.

(** A text the lower-casing of this development reads as JavaScript does:
    ASCII characters only. *)
Definition ascii_only (s : string) : bool :=
  forallb (λ c, (nat_of_ascii c <? 128)%nat) (list_ascii_of_string s).

Definition reads_as_text (field : option Value) : Prop :=
  match field with
  | Some (VStr s) => ascii_only s = true
  | _ => True
  end.

(** A record whose fields the evaluator reads are read as JavaScript reads
    them. *)
Definition plainly_read (prop : Property) : Prop :=
  reads_as_text (prop !! "propertyType") ∧
  reads_as_text (prop !! "location") ∧
  reads_as_integer (prop !! "price") ∧
  reads_as_integer (prop !! "beds") ∧
  reads_as_integer (prop !! "baths").

(** Filters whose text criteria are ASCII. *)
Definition plain_queries (f : Filters) : Prop :=
  (∀ query, propertyType f = Some query → ascii_only query = true) ∧
  (∀ query, location f = Some query → ascii_only query = true).

(** The conjunction of the six filters of [searchProperties]. *)
Definition js_matches (f : Filters) (prop : Property) : bool :=
  js_text (propertyType f) "propertyType" prop
  && js_text (location f) "location" prop
  && js_at_least (minPrice f) "price" prop
  && js_at_most (maxPrice f) "price" prop
  && js_at_least (beds f) "beds" prop
  && js_at_least (baths f) "baths" prop.

(** The extension [generateUniqueFilename] picks. *)
Definition extension_of (E : Env) (originalName mimeType : string) : string :=
  match extname E originalName with
  | EmptyString => getExtensionFromMimeType mimeType
  | e => e
  end.

(** The bytes [processImage] writes for a payload. *)
Definition payload_bytes (E : Env) (imageData : ImageData.t) : string :=
  base64_decode E (strip_data_uri (default "" (ImageData.data imageData))).

(** The durable file lies in the data directory: a world whose file holds
    a collection has the directory. *)
Definition file_in_dir (w : World) : Prop :=
  ∀ stored, file w = Stored stored → DATA_DIR ∈ dirs w.

(** What a write of the durable file that failed at call [k] leaves of a
    file that held [stored]. *)
Definition file_after_fault (E : Env) (k : nat) (stored : list Property) : FileState :=
  match damage_at E k with
  | Untouched => Stored stored
  | Torn remains => Unreadable (json_error E remains)
  end.

(** The images of a request, none when the key is absent. *)
Definition submitted_images (propertyData : PropertyData) : list ImageData.t :=
  default [] (images propertyData).

(** ** Concrete environments and worlds, for examples *)

(** A first run: nothing on disk yet. *)
Definition fresh_world : World :=
  {| dirs := ∅; file := Absent; uploads := ∅; ticks := 0; rolls := 0; hexes := 0;
     fs_calls := 0; console := [] |}.

(** A healthy disk, a clock that advances by one millisecond per reading and
    distinct random draws. *)
Definition ticking_env : Env :=
  {| time_at := λ k, 1700000000000 + Z.of_nat k;
     suffix_at := λ k, "k3j9x0a2" +:+ pretty k;
     hex_at := λ k, "00112233445566" +:+ pad 2 (Z.of_nat k);
     fault_at := λ _, None;
     damage_at := λ _, Untouched;
     json_error := λ _, "Unexpected end of JSON input";
     extname := λ _, "";
     path_join := λ d f, d +:+ "/" +:+ f;
     base64_decode := λ s, s |}.

(** The same, but all readings fall into one millisecond and [Math.random]
    repeats itself. *)
Definition frozen_env : Env :=
  {| time_at := λ _, 1700000000000;
     suffix_at := λ _, "k3j9x0a2b";
     hex_at := λ k, "00112233445566" +:+ pad 2 (Z.of_nat k);
     fault_at := λ _, None;
     damage_at := λ _, Untouched;
     json_error := λ _, "Unexpected end of JSON input";
     extname := λ _, "";
     path_join := λ d f, d +:+ "/" +:+ f;
     base64_decode := λ s, s |}.

(** A full disk: every [mkdirSync] and [writeFileSync] fails, a write after
    the file was opened and emptied. *)
Definition full_disk_env : Env :=
  {| time_at := λ k, 1700000000000 + Z.of_nat k;
     suffix_at := λ k, "k3j9x0a2" +:+ pretty k;
     hex_at := λ k, "00112233445566" +:+ pad 2 (Z.of_nat k);
     fault_at := λ _, Some "ENOSPC: no space left on device";
     damage_at := λ _, Torn "";
     json_error := λ _, "Unexpected end of JSON input";
     extname := λ _, "";
     path_join := λ d f, d +:+ "/" +:+ f;
     base64_decode := λ s, s |}.

Definition flat : Property :=
  {[ "propertyType" := VStr "Flat"; "location" := VStr "Leeds"; "price" := VNum 1200;
     "beds" := VNum 2; "baths" := VNum 1 ]}.

Definition villa : Property :=
  {[ "propertyType" := VStr "Villa"; "location" := VStr "Bath"; "price" := VNum 5000;
     "beds" := VNum 5; "baths" := VNum 3 ]}.

(** A record without a [location]. *)
Definition plot : Property :=
  {[ "propertyType" := VStr "Plot"; "price" := VNum 900 ]}.

(** A world whose durable file holds the given records. *)
Definition world_with (properties : list Property) : World :=
  set_file (Stored properties) (set_dirs {[DATA_DIR]} fresh_world).

Definition only_maxPrice (bound : Z) : Filters := with_maxPrice (Some bound) no_filters.

Definition only_location (query : string) : Filters :=
  {| propertyType := None; location := Some query; minPrice := None; maxPrice := None;
     beds := None; baths := None |}.

Definition flats_between_1000_and_2000 : Filters :=
  {| propertyType := Some "flat"; location := None; minPrice := Some 1000;
     maxPrice := Some 2000; beds := None; baths := None |}.

(** The identifier the first create in [frozen_env] or [ticking_env] issues. *)
Definition frozen_id : string := "PROP_1700000000000_k3j9x0a2b".
Definition first_id : string := "PROP_1700000000000_k3j9x0a20".

(** The world after the first create of a first run. *)
Definition after_first_create (E : Env) : World := (saveProperty E flat fresh_world).2.

Definition new_price : Property := {[ "price" := VNum 500 ]}.

Definition busy_day : list Op :=
  [Create flat; Update first_id new_price; Delete first_id; Create villa].

Definition forged_identity : Property :=
  {[ "id" := VStr "PROP_X"; "createdAt" := VStr "1999-01-01T00:00:00.000Z" ]}.

Definition forged_stamp : Property := {[ "updatedAt" := VStr "2099-01-01T00:00:00.000Z" ]}.

Definition good_image : ImageData.t :=
  {| ImageData.name := Some "front.png"; ImageData.type := Some "image/png";
     ImageData.data := Some "data:image/png;base64,iVBORw0KGgo=";
     ImageData.size := Some 2048 |}.

(** No name, a type that is not allowed. *)
Definition bad_image : ImageData.t :=
  {| ImageData.name := None; ImageData.type := Some "image/gif";
     ImageData.data := Some "data:image/png;base64,iVBORw0KGgo=";
     ImageData.size := None |}.

Definition listing_with (imgs : list ImageData.t) : PropertyData :=
  {| attributes := flat; images := Some imgs |}.

Definition listed_flat : Property := <["id" := VStr "PROP_1"]> flat.

Definition listed_villa : Property := <["id" := VStr "PROP_2"]> villa.

(** A record without a [propertyType]. *)
Definition untyped : Property := {[ "location" := VStr "Leeds"; "price" := VNum 700 ]}.

(** A world whose durable file does not parse. *)
Definition corrupt_world : World :=
  set_file (Unreadable "Unexpected end of JSON input")
    (set_dirs {[DATA_DIR]} fresh_world).

(** * Properties *)

Ltac unfold_m :=
  unfold readProperties, writeProperties, ensureDataDir, try_catch, bind, ret, throw,
    existsSync_dir, existsSync_properties, mkdirSync, writeFileSync_properties,
    writeFileSync_image, randomBytes_hex, readFileSync_properties, console_emit,
    Date_now, Math_random_suffix, lift in *.

(** ** The durable file *)

Lemma readProperties_inv E w :
  ∃ ps w', readProperties E w = (Ok ps, w') ∧
    file w' = file w ∧ uploads w' = uploads w ∧ ticks w' = ticks w ∧ rolls w' = rolls w ∧
    hexes w' = hexes w ∧ dirs w ⊆ dirs w' ∧
    (ps = [] ∨ (file w = Stored ps ∧ console w' = console w ∧ DATA_DIR ∈ dirs w')).
Proof.
  unfold_m. destruct w as [d f u t r h c l]; simpl.
  case_bool_decide; simpl.
  - destruct f; simpl; eexists _, _; (split; [reflexivity|]); simpl; repeat split; auto.
  - destruct (fault_at E c); simpl.
    + eexists _, _; (split; [reflexivity|]); simpl; repeat split; auto.
    + destruct f; simpl; eexists _, _; (split; [reflexivity|]); simpl; repeat split; auto; try set_solver.
Qed.

Lemma writeProperties_inv E ps w :
  ∃ b w', writeProperties E ps w = (Ok b, w') ∧
    (file w' = (if b then Stored ps else file w)
     ∨ b = false ∧ ∃ remains, file w' = Unreadable (json_error E remains)) ∧
    uploads w' = uploads w ∧ ticks w' = ticks w ∧ rolls w' = rolls w ∧ hexes w' = hexes w ∧
    dirs w ⊆ dirs w' ∧
    (b = true → DATA_DIR ∈ dirs w') ∧
    ((∀ k, fault_at E k = None) → b = true) ∧
    (if b then console w' = console w
     else ∃ detail,
         console w' = (console w ++ [LogError "Error writing properties:" detail])%list) ∧
    (b = false → ∃ k e, fault_at E k = Some e).
Proof.
  unfold_m. destruct w as [d f u t r h c l]; simpl.
  case_bool_decide; simpl.
  - destruct (fault_at E c) eqn:Hf; simpl; [destruct (damage_at E c); simpl|];
      eexists _, _; (split; [reflexivity|]); simpl;
      repeat split; eauto; try discriminate;
      intros Hno; rewrite Hno in Hf; discriminate.
  - destruct (fault_at E c) eqn:Hf; simpl.
    + eexists _, _; (split; [reflexivity|]); simpl; repeat split; eauto; try discriminate.
      intros Hno. rewrite Hno in Hf. discriminate.
    + destruct (fault_at E (S c)) eqn:Hf'; simpl; [destruct (damage_at E (S c)); simpl|];
        eexists _, _; (split; [reflexivity|]); simpl;
        repeat split; eauto; try discriminate; try set_solver;
        intros Hno; rewrite Hno in Hf'; discriminate.
Qed.

Lemma readProperties_loaded E w : readProperties E w = (Ok (loaded E w), after_load E w).
Proof.
  unfold loaded, after_load.
  destruct (readProperties_inv E w) as (ps & w' & -> & _). done.
Qed.

Lemma after_load_inv E w :
  file (after_load E w) = file w ∧ ticks (after_load E w) = ticks w ∧
  rolls (after_load E w) = rolls w ∧
  (loaded E w = [] ∨ file w = Stored (loaded E w)).
Proof.
  unfold after_load, loaded.
  destruct (readProperties_inv E w) as (ps & w' & -> & ? & ? & ? & ? & ? & ? & Hc).
  simpl. repeat split; try done. destruct Hc as [?|(? & _)]; auto.
Qed.

Lemma loaded_collection E w : loaded E w = [] ∨ loaded E w = collection w.
Proof.
  destruct (after_load_inv E w) as (_ & _ & _ & [H|H]); [by left|right].
  unfold collection. by rewrite H.
Qed.

Lemma collection_file w w' : file w' = file w → collection w' = collection w.
Proof. unfold collection. by intros ->. Qed.

Lemma loaded_healthy E w : (∀ k, fault_at E k = None) → loaded E w = collection w.
Proof.
  intros Hno. unfold loaded, collection. unfold_m. destruct w as [d f u t r h c l]; simpl.
  case_bool_decide; simpl.
  - by destruct f.
  - rewrite Hno. simpl. by destruct f.
Qed.

Lemma loaded_present E w :
  DATA_DIR ∈ dirs w → loaded E w = collection w ∧ file (after_load E w) = file w.
Proof.
  intros Hd. destruct (after_load_inv E w) as (Hf & _). split; [|done].
  unfold loaded, collection. unfold_m.
  rewrite bool_decide_eq_true_2 by done. simpl.
  destruct (file w) eqn:Hfw; simpl; rewrite ?Hfw; done.
Qed.

(** C8. Loading the durable collection never raises: [readProperties]
    always returns a collection and leaves the file as it was.  When the file
    is absent the collection returned is empty; when the file exists but
    cannot be read or parsed, the load reports the error on the console and
    returns the empty collection instead of the file's content; a readable
    file in an existing data directory is returned as stored, silently. *)
Theorem readProperties_never_throws E w :
  ∃ properties w',
    readProperties E w = (Ok properties, w') ∧
    file w' = file w ∧
    (file w = Absent → properties = []) ∧
    (∀ reason, file w = Unreadable reason →
       properties = [] ∧
       ∃ detail, console w' = (console w ++ [LogError "Error reading properties:" detail])%list) ∧
    (∀ stored, file w = Stored stored → DATA_DIR ∈ dirs w →
       properties = stored ∧ console w' = console w).
Proof.
  unfold_m. destruct w as [d f u t r h c l]; simpl.
  case_bool_decide; simpl.
  - destruct f; simpl; eexists _, _; (split; [reflexivity|]); simpl; repeat split;
      intros; simplify_eq; eauto.
  - destruct (fault_at E c); simpl.
    + eexists _, _; (split; [reflexivity|]); simpl; repeat split; intros; simplify_eq;
        eauto; try done.
    + destruct f; simpl; eexists _, _; (split; [reflexivity|]); simpl; repeat split;
        intros; simplify_eq; eauto; try done.
Qed.


(** ** Delete *)

Lemma find_filter_not id (ps : list Property) :
  List.find (has_id id) (List.filter (λ prop, negb (has_id id prop)) ps) = None.
Proof.
  induction ps as [|p ps IH]; simpl; [done|].
  destruct (has_id id p) eqn:Hp; simpl; [done|]. by rewrite Hp.
Qed.

Lemma filter_all_true {A} (f : A → bool) (l : list A) :
  (∀ x, In x l → f x = true) → List.filter f l = l.
Proof.
  induction l as [|a l IH]; simpl; intros H; [done|].
  rewrite H by auto. f_equal. apply IH. auto.
Qed.

Lemma filter_length_all {A} (g : A → bool) (l : list A) :
  length (List.filter g l) = length l → ∀ x, x ∈ l → g x = true.
Proof.
  induction l as [|a l IH]; simpl; [by intros _ ? ?%elem_of_nil|].
  pose proof (List.filter_length_le g l) as Hle.
  destruct (g a) eqn:Ha; simpl; intros Hlen x Hx.
  - apply elem_of_cons in Hx as [->|Hx]; [done|]. apply IH; [lia|done].
  - lia.
Qed.


Lemma deleteProperty_run E id w :
  deleteProperty E id w =
  let kept := List.filter (λ prop, negb (has_id id prop)) (loaded E w) in
  if (length kept =? length (loaded E w))%nat then (Ok false, after_load E w)
  else writeProperties E kept (after_load E w).
Proof.
  unfold deleteProperty. unfold bind at 1. rewrite readProperties_loaded. cbv zeta.
  by destruct (_ =? _)%nat.
Qed.

(** The file after a delete: as it was, without the records of the id, or
    truncated by a write that failed. *)
Lemma deleteProperty_file E id w :
  file (deleteProperty E id w).2 = file w
  ∨ (file w = Stored (collection w) ∧
     file (deleteProperty E id w).2
     = Stored (List.filter (λ prop, negb (has_id id prop)) (collection w)))
  ∨ ∃ remains, file (deleteProperty E id w).2 = Unreadable (json_error E remains).
Proof.
  rewrite deleteProperty_run. cbv zeta.
  destruct (after_load_inv E w) as (Hf & _ & _ & Hl).
  destruct (length _ =? length (loaded E w))%nat eqn:Hlen; [by left|].
  apply Nat.eqb_neq in Hlen.
  assert (Hst : file w = Stored (loaded E w)).
  { destruct Hl as [Hl|Hl]; [|done]. rewrite Hl in Hlen. by destruct Hlen. }
  assert (Hc : collection w = loaded E w) by (unfold collection; by rewrite Hst).
  destruct (writeProperties_inv E (List.filter (λ prop, negb (has_id id prop)) (loaded E w))
              (after_load E w)) as (b & w2 & -> & [Hf2|(_ & remains & Hf2)] & _); simpl.
  - destruct b; [right; left|left]; rewrite Hf2; [|done]. by rewrite Hc.
  - right. right. eauto.
Qed.



(** ** Validation of an image payload *)

Lemma startsWith_spec p s : startsWith p s = true ↔ ∃ r, s = p +:+ r.
Proof.
  revert s. induction p as [|a p IH]; intros s; simpl.
  - split; eauto.
  - destruct s as [|b s]; simpl.
    + split; [discriminate|]. intros [r Hr]. discriminate.
    + destruct (Ascii.eqb_spec a b) as [->|Hne].
      * rewrite IH. split; intros [r Hr]; exists r.
        -- by rewrite Hr.
        -- by injection Hr.
      * split; [discriminate|]. intros [r Hr]. injection Hr as -> _. done.
Qed.

Lemma string_in_spec s l : string_in s l = true ↔ In s l.
Proof.
  unfold string_in. rewrite existsb_exists. split.
  - intros (x & Hx & Heq). apply String.eqb_eq in Heq. by subst.
  - intros H. exists s. split; [done|]. apply String.eqb_refl.
Qed.

Lemma truthy_string_Some o s : truthy_string o = Some s ↔ o = Some s ∧ s ≠ "".
Proof. destruct o as [[|]|]; simpl; split; intros; destruct_and?; simplify_eq; done. Qed.

Lemma truthy_string_None o : truthy_string o = None ↔ o = None ∨ o = Some "".
Proof. destruct o as [[|]|]; simpl; split; intros; destruct_or?; simplify_eq; auto. Qed.

Lemma base64Regex_test_spec d :
  base64Regex_test d = true ↔
  ∃ kind payload, (kind = "jpeg" ∨ kind = "jpg" ∨ kind = "png" ∨ kind = "webp") ∧
     d = "data:image/" +:+ kind +:+ ";base64," +:+ payload.
Proof.
  unfold base64Regex_test. rewrite !orb_true_iff, !startsWith_spec. split.
  - intros [[[[r ->] | [r ->]] | [r ->]] | [r ->]].
    + exists "jpeg", r. auto.
    + exists "jpg", r. auto.
    + exists "png", r. auto.
    + exists "webp", r. auto.
  - intros (kind & r & [-> | [-> | [-> | ->]]] & ->); eauto.
Qed.

Lemma name_present_check img :
  truthy_string (ImageData.name img) ≠ None ↔ name_present img.
Proof.
  unfold name_present. destruct (ImageData.name img) as [[|c s]|]; simpl; split;
    try done; eauto; intros (s' & [= <-] & Hs); done.
Qed.

Lemma type_allowed_check img :
  (∃ t, truthy_string (ImageData.type img) = Some t ∧ string_in t ALLOWED_TYPES = true)
  ↔ type_allowed img.
Proof.
  unfold type_allowed. setoid_rewrite truthy_string_Some. setoid_rewrite string_in_spec.
  unfold ALLOWED_TYPES; simpl. split.
  - intros (t & [Ht _] & Hin). exists t. split; [done|].
    destruct Hin as [<-|[<-|[<-|[<-|[]]]]]; auto.
  - intros (t & Ht & Hin). exists t. split; [split; [done|]|].
    + destruct Hin as [-> | [-> | [-> | ->]]]; done.
    + destruct Hin as [-> | [-> | [-> | ->]]]; auto 6.
Qed.

Lemma data_wellformed_check img :
  (∃ d, truthy_string (ImageData.data img) = Some d ∧ base64Regex_test d = true)
  ↔ data_wellformed img.
Proof.
  unfold data_wellformed. setoid_rewrite truthy_string_Some.
  setoid_rewrite base64Regex_test_spec. split.
  - intros (d & [Hd _] & kind & payload & Hk & ->). eauto 6.
  - intros (d & kind & payload & Hd & Hk & ->). eexists. split; [split; [done|]|eauto].
    destruct Hk as [-> | [-> | [-> | ->]]]; done.
Qed.

Lemma size_within_check img :
  (∀ n, truthy_number (ImageData.size img) = Some n → (MAX_IMAGE_SIZE <? n) = false)
  ↔ size_within img.
Proof.
  unfold size_within, MAX_IMAGE_SIZE.
  destruct (ImageData.size img) as [[|p|p]|]; simpl; split; intros H n Hn;
    try discriminate; injection Hn as <-; try lia.
  all: specialize (H _ eq_refl); rewrite ?Z.ltb_ge in *; lia.
Qed.

Lemma validateImageData_checks (img : ImageData.t) :
  let v := validateImageData img in
  (Validation.isValid v = true ↔
     name_present img ∧ type_allowed img ∧ data_wellformed img ∧ size_within img) ∧
  (Validation.isValid v = false → Validation.errors v ≠ []).
Proof.
  intros v. subst v.
  rewrite <- name_present_check, <- type_allowed_check, <- data_wellformed_check,
    <- size_within_check.
  unfold validateImageData, push_if.
  repeat case_match;
    cbn [negb app length Nat.eqb Validation.isValid Validation.errors] in *;
    rewrite ?negb_true_iff, ?negb_false_iff in *;
    (split; [split; [try discriminate; intros _ | try done] | try done]).
  all: try (repeat split; eauto; intros ? [= <-]; done).
  all: intros (Hn & (t0 & Ht & Hin) & (d0 & Hd & Hre) & Hsz); simplify_eq;
    try specialize (Hsz _ eq_refl); congruence.
Qed.

(** C5. Validation of an image payload succeeds exactly when its name is
    present and non-empty, its declared type is present and one of
    image/jpeg, image/jpg, image/png, image/webp, its data is present and
    starts with the data-URI base64 prefix of one of the allowed kinds, and
    its size, when present, is at most 10 MiB; a failed validation carries at
    least one error message. *)
Theorem validateImageData_spec (img : ImageData.t) :
  let v := validateImageData img in
  (Validation.isValid v = true ↔
     name_present img ∧ type_allowed img ∧ data_wellformed img ∧ size_within img) ∧
  (Validation.isValid v = false → Validation.errors v ≠ []).
Proof. exact (validateImageData_checks img). Qed.

(** ** Image batches *)

Lemma processImage_total E img dir w :
  ∃ r w', processImage E img dir w = (Ok r, w') ∧ file w' = file w ∧
    (Validation.isValid (validateImageData img) = false →
       r = Rejected (Validation.errors (validateImageData img)) ∧ w' = w).
Proof.
  unfold processImage, generateUniqueFilename. unfold_m.
  destruct (Validation.isValid (validateImageData img)); simpl.
  - case_bool_decide; simpl.
    + destruct (fault_at E (fs_calls w)); simpl; [destruct (damage_at E (fs_calls w)); simpl|];
        eexists _, _; (split; [reflexivity|]); simpl; split; auto; discriminate.
    + destruct (fault_at E (fs_calls w)); simpl.
      * eexists _, _; (split; [reflexivity|]); simpl; split; auto; discriminate.
      * destruct (fault_at E (S (fs_calls w))); simpl;
          [destruct (damage_at E (S (fs_calls w))); simpl|];
          eexists _, _; (split; [reflexivity|]); simpl; split; auto; discriminate.
  - eexists _, _; (split; [reflexivity|]); auto.
Qed.

Lemma processImage_ingest E img dir w :
  processImage E img dir w = (Ok (ingest E img dir w).1, (ingest E img dir w).2).
Proof.
  unfold ingest. destruct (processImage_total E img dir w) as (r & w' & -> & _). done.
Qed.

Lemma ingest_file E img dir w : file (ingest E img dir w).2 = file w.
Proof.
  unfold ingest. destruct (processImage_total E img dir w) as (r & w' & -> & Hf & _). done.
Qed.

Lemma ingest_invalid E img dir w :
  Validation.isValid (validateImageData img) = false →
  ingest E img dir w = (Rejected (Validation.errors (validateImageData img)), w).
Proof.
  intros H. unfold ingest.
  destruct (processImage_total E img dir w) as (r & w' & -> & _ & Hr).
  destruct (Hr H) as [-> ->]. done.
Qed.

Lemma ingest_each_file E images dir w : file (ingest_each E images dir w).2 = file w.
Proof.
  revert w. induction images as [|img images IH]; intros w; simpl; [done|].
  destruct (ingest E img dir w) as [r w1] eqn:H1.
  specialize (IH w1). destruct (ingest_each E images dir w1) as [rs w2]. simpl in *.
  rewrite IH. pose proof (ingest_file E img dir w) as Hf. by rewrite H1 in Hf.
Qed.

Lemma ingest_each_length E images dir w :
  length (ingest_each E images dir w).1 = length images.
Proof.
  revert w. induction images as [|img images IH]; intros w; simpl; [done|].
  destruct (ingest E img dir w) as [r w1].
  specialize (IH w1). destruct (ingest_each E images dir w1) as [rs w2]. simpl in *. lia.
Qed.

Lemma processImages_from_run E images dir i results errors w :
  processImages_from E images dir i results errors w =
  (Ok {| Batch.success :=
           (length (errors ++ error_entries i images (ingest_each E images dir w).1) =? 0)%nat;
         Batch.processedImages :=
           results ++ processed_entries i (ingest_each E images dir w).1;
         Batch.errors := errors ++ error_entries i images (ingest_each E images dir w).1 |},
   (ingest_each E images dir w).2).
Proof.
  revert i results errors w.
  induction images as [|img images IH]; intros i results errors w; simpl.
  - unfold ret. by rewrite !app_nil_r.
  - unfold bind at 1. rewrite processImage_ingest.
    destruct (ingest E img dir w) as [r w1]. simpl.
    specialize (IH (S i)).
    destruct r; rewrite IH; destruct (ingest_each E images dir w1) as [rs w2]; simpl;
      by rewrite <- ?app_assoc.
Qed.

Lemma elem_of_processed_entries i results p :
  p ∈ processed_entries i results ↔
  ∃ k, results !! k =
         Some (Saved (Processed.filename p) (Processed.filepath p) (Processed.size p)
                 (Processed.originalName p)) ∧
       Processed.index p = (i + k)%nat.
Proof.
  revert i. induction results as [|r results IH]; intros i; simpl.
  - split; [by intros ?%elem_of_nil | by intros (k & ? & _)].
  - assert (Htail : p ∈ processed_entries (S i) results ↔
      ∃ k, (r :: results) !! S k =
             Some (Saved (Processed.filename p) (Processed.filepath p) (Processed.size p)
                     (Processed.originalName p)) ∧
           Processed.index p = (i + S k)%nat).
    { rewrite IH. split; intros (k & Hk & Hi); exists k; simpl in *; (split; [exact Hk|lia]). }
    destruct r as [f pth s o|es|e].
    + rewrite elem_of_cons, Htail. split.
      * intros [->|(k & Hk & Hi)]; [exists 0%nat; simpl; split; [done|lia] | by exists (S k)].
      * intros ([|k] & Hk & Hi); [left|right; eauto].
        simpl in Hk. injection Hk as -> -> -> ->. destruct p; simpl in *. f_equal. lia.
    + rewrite Htail. split; [intros (k & ?); by exists (S k)|]. intros ([|k] & Hk & Hi); [cbn in Hk; discriminate|eauto].
    + rewrite Htail. split; [intros (k & ?); by exists (S k)|]. intros ([|k] & Hk & Hi); [cbn in Hk; discriminate|eauto].
Qed.

Lemma elem_of_error_entries i images results e :
  e ∈ error_entries i images results ↔
  ∃ k img r, images !! k = Some img ∧ results !! k = Some r ∧ is_saved r = false ∧
    ImageError.index e = (i + k)%nat ∧
    ImageError.originalName e = ImageData.name img ∧
    ImageError.errors e = reasons r.
Proof.
  revert i results. induction images as [|img images IH]; intros i results; simpl.
  - split; [by intros ?%elem_of_nil | by intros (k & ? & ? & ? & _)].
  - destruct results as [|r results].
    { split; [by intros ?%elem_of_nil | by intros (k & ? & ? & _ & ? & _)]. }
    assert (Htail : e ∈ error_entries (S i) images results ↔
      ∃ k img' r', (img :: images) !! S k = Some img' ∧ (r :: results) !! S k = Some r' ∧
        is_saved r' = false ∧ ImageError.index e = (i + S k)%nat ∧
        ImageError.originalName e = ImageData.name img' ∧ ImageError.errors e = reasons r').
    { rewrite IH. split; intros (k & img' & r' & H1 & H2 & H3 & H4 & H5 & H6);
        exists k, img', r'; simpl in *; split_and!; first [assumption | lia]. }
    destruct (is_saved r) eqn:Hr.
    + rewrite Htail. split; [intros (k & ?); exists (S k); done|].
      intros ([|k] & img' & r' & H1 & H2 & H3 & H4); [|eauto 10].
      simpl in *. simplify_eq. congruence.
    + rewrite elem_of_cons, Htail. split.
      * intros [->|(k & ?)]; [|exists (S k); done].
        exists 0%nat, img, r. simpl. repeat split; auto; lia.
      * intros ([|k] & img' & r' & H1 & H2 & H3 & H4 & H5 & H6); [left|right; eauto 10].
        simpl in *. simplify_eq. destruct e; simpl in *. f_equal; [lia|done..].
Qed.

Lemma error_entries_nil i images results :
  length results = length images →
  error_entries i images results = [] ↔ ∀ r, r ∈ results → is_saved r = true.
Proof.
  revert i results. induction images as [|img images IH]; intros i [|r results] Hlen;
    simpl in *; try discriminate.
  - split; [by intros _ r ?%elem_of_nil | done].
  - destruct (is_saved r) eqn:Hr.
    + rewrite IH by lia. split.
      * intros H r' [->|?]%elem_of_cons; auto.
      * intros H r' ?. apply H. by right.
    + split; [done|]. intros H. specialize (H r (list_elem_of_here _ _)). congruence.
Qed.

Lemma processImages_batch E images uploadDir w :
  let results := (ingest_each E images uploadDir w).1 in
  ∃ batch,
    processImages E images uploadDir w = (Ok batch, (ingest_each E images uploadDir w).2) ∧
    length results = length images ∧
    Batch.processedImages batch = processed_entries 0 results ∧
    Batch.errors batch = error_entries 0 images results ∧
    (Batch.success batch = true ↔ ∀ r, r ∈ results → is_saved r = true) ∧
    (∀ k img r, images !! k = Some img → results !! k = Some r →
       match r with
       | Saved filename filepath size originalName =>
           {| Processed.index := k; Processed.filename := filename;
              Processed.filepath := filepath; Processed.size := size;
              Processed.originalName := originalName |} ∈ Batch.processedImages batch
       | _ =>
           {| ImageError.index := k; ImageError.originalName := ImageData.name img;
              ImageError.errors := reasons r |} ∈ Batch.errors batch
       end) ∧
    (∀ p, p ∈ Batch.processedImages batch →
       results !! Processed.index p =
         Some (Saved (Processed.filename p) (Processed.filepath p) (Processed.size p)
                 (Processed.originalName p))) ∧
    (∀ e, e ∈ Batch.errors batch →
       ∃ img r, images !! ImageError.index e = Some img ∧
         results !! ImageError.index e = Some r ∧ is_saved r = false ∧
         ImageError.originalName e = ImageData.name img ∧ ImageError.errors e = reasons r) ∧
    (images = [] →
       batch = {| Batch.success := true; Batch.processedImages := []; Batch.errors := [] |}).
Proof.
  intros results.
  pose proof (ingest_each_length E images uploadDir w) as Hlen. fold results in Hlen.
  exists {| Batch.success := (length (error_entries 0 images results) =? 0)%nat;
            Batch.processedImages := processed_entries 0 results;
            Batch.errors := error_entries 0 images results |}.
  simpl. split; [|split; [done|split; [done|split; [done|split; [|split; [|split; [|split]]]]]]].
  - destruct images as [|img images]; [done|].
    unfold processImages. rewrite processImages_from_run. done.
  - rewrite <- (error_entries_nil 0 images results Hlen).
    destruct (error_entries 0 images results); simpl; split; done.
  - intros k img r Hk Hr. destruct r as [f pth s o|es|e].
    + apply elem_of_processed_entries. exists k. simpl. done.
    + apply elem_of_error_entries. exists k, img, (Rejected es). simpl. done.
    + apply elem_of_error_entries. exists k, img, (Crashed e). simpl. done.
  - intros p (k & Hk & Hi)%elem_of_processed_entries. simpl in Hi. by rewrite Hi.
  - intros e (k & img & r & H1 & H2 & H3 & H4 & H5 & H6)%elem_of_error_entries.
    simpl in H4. rewrite H4. eauto 10.
  - intros ->. done.
Qed.

(** C2. [processImages] ingests the items one after the other in input
    order (the results are those of [ingest_each]) and never raises.  Every
    item is attempted, also after a failure: there are as many results as
    items, each saved item has an entry in [processedImages] and each failed
    item an entry in [errors], under the item's own index, in input order, and
    there are no other entries.  [success] holds exactly when every item was
    saved, and the empty batch succeeds with empty lists. *)
Theorem processImages_spec E images uploadDir w :
  let results := (ingest_each E images uploadDir w).1 in
  ∃ batch,
    processImages E images uploadDir w = (Ok batch, (ingest_each E images uploadDir w).2) ∧
    length results = length images ∧
    Batch.processedImages batch = processed_entries 0 results ∧
    Batch.errors batch = error_entries 0 images results ∧
    (Batch.success batch = true ↔ ∀ r, r ∈ results → is_saved r = true) ∧
    (∀ k img r, images !! k = Some img → results !! k = Some r →
       match r with
       | Saved filename filepath size originalName =>
           {| Processed.index := k; Processed.filename := filename;
              Processed.filepath := filepath; Processed.size := size;
              Processed.originalName := originalName |} ∈ Batch.processedImages batch
       | _ =>
           {| ImageError.index := k; ImageError.originalName := ImageData.name img;
              ImageError.errors := reasons r |} ∈ Batch.errors batch
       end) ∧
    (∀ p, p ∈ Batch.processedImages batch →
       results !! Processed.index p =
         Some (Saved (Processed.filename p) (Processed.filepath p) (Processed.size p)
                 (Processed.originalName p))) ∧
    (∀ e, e ∈ Batch.errors batch →
       ∃ img r, images !! ImageError.index e = Some img ∧
         results !! ImageError.index e = Some r ∧ is_saved r = false ∧
         ImageError.originalName e = ImageData.name img ∧ ImageError.errors e = reasons r) ∧
    (images = [] →
       batch = {| Batch.success := true; Batch.processedImages := []; Batch.errors := [] |}).
Proof. exact (processImages_batch E images uploadDir w). Qed.

(** ** Creation requests *)

Lemma ingest_each_invalid E images dir w i img :
  images !! i = Some img →
  Validation.isValid (validateImageData img) = false →
  (ingest_each E images dir w).1 !! i = Some (Rejected (Validation.errors (validateImageData img))).
Proof.
  revert i w. induction images as [|x images IH]; intros i w Hi Hbad; [done|].
  simpl. destruct (ingest E x dir w) as [r w1] eqn:Hx.
  specialize (IH (pred i) w1).
  destruct (ingest_each E images dir w1) as [rs w2]. simpl in *.
  destruct i as [|i]; simpl in *.
  - injection Hi as ->. rewrite (ingest_invalid E img dir w Hbad) in Hx. by injection Hx as <- _.
  - by apply IH.
Qed.

(** C1. When at least one image of the submitted batch fails validation,
    [addProperty] answers with the 400 response, the durable file is left as
    it was, and the errors of the response hold, for every image that fails
    validation, an entry with its index in the submitted order and its
    validation messages, of which there is at least one. *)
Theorem addProperty_rejects_failed_batch E propertyData w submitted :
  images propertyData = Some submitted →
  (∃ img, img ∈ submitted ∧ Validation.isValid (validateImageData img) = false) →
  ∃ errors w',
    addProperty E propertyData w = (Ok (BadRequest errors), w') ∧
    file w' = file w ∧
    ∀ i img,
      submitted !! i = Some img →
      Validation.isValid (validateImageData img) = false →
      {| ImageError.index := i; ImageError.originalName := ImageData.name img;
         ImageError.errors := Validation.errors (validateImageData img) |} ∈ errors ∧
      Validation.errors (validateImageData img) ≠ [].
Proof.
  intros Himgs (bad & [k Hk]%list_elem_of_lookup & Hbad).
  unfold addProperty, try_catch. rewrite Himgs.
  destruct submitted as [|first rest]; [done|].
  unfold bind at 1. unfold console_emit at 1.
  unfold bind at 1. unfold console_emit at 1.
  set (w1 := log _ (log _ w)).
  unfold bind at 1.
  destruct (processImages_batch E (first :: rest) UPLOAD_DIR w1)
    as (batch & Hrun & Hlen & _ & _ & Hsucc & Hall & _).
  rewrite Hrun.
  assert (Hfail : Batch.success batch = false).
  { apply not_true_is_false. intros Hs.
    pose proof (proj1 Hsucc Hs) as Hsaved.
    pose proof (ingest_each_invalid E _ UPLOAD_DIR w1 k bad Hk Hbad) as Hr.
    specialize (Hsaved _ (proj2 (list_elem_of_lookup _ _) (ex_intro _ k Hr))). done. }
  rewrite Hfail. simpl. unfold bind, console_emit, ret. simpl.
  eexists _, _. split; [reflexivity|]. simpl. split.
  - exact (ingest_each_file E (first :: rest) UPLOAD_DIR w1).
  - intros i img Hi Hinv. split.
    + apply (Hall i img _ Hi (ingest_each_invalid E _ UPLOAD_DIR w1 i img Hi Hinv)).
    + by apply validateImageData_checks.
Qed.

(** ** The search evaluator *)

Lemma filter_true {A} (l : list A) : List.filter (λ _, true) l = l.
Proof. induction l; simpl; congruence. Qed.

Lemma filter_filter {A} (f g : A → bool) (l : list A) :
  List.filter g (List.filter f l) = List.filter (λ x, f x && g x) l.
Proof.
  induction l as [|a l IH]; simpl; [done|].
  destruct (f a); simpl; [destruct (g a)|]; simpl; congruence.
Qed.

Lemma Forall_filter {A} (P : A → Prop) (f : A → bool) (l : list A) :
  Forall P l → Forall P (List.filter f l).
Proof.
  induction 1 as [|a l Ha Hl IH]; simpl; [constructor|].
  destruct (f a); [constructor|]; done.
Qed.

Lemma filter_throwing_total (cb : Property → Outcome bool) (b : Property → bool)
    (P : Property → Prop) (l : list Property) :
  (∀ x, P x → cb x = Ok (b x)) → Forall P l →
  filter_throwing cb l = Ok (List.filter b l).
Proof.
  intros Hcb. induction 1 as [|a l Ha Hl IH]; simpl; [done|].
  rewrite (Hcb a Ha), IH. done.
Qed.

Lemma text_stage key criterion (l : list Property) w :
  Forall (λ prop, ∃ s, prop !! key = Some (VStr s)) l →
  match truthy_string criterion with
  | Some query => lift (filter_throwing (field_includes key query) l)
  | None => ret l
  end w
  = (Ok (List.filter (λ prop, matches_text (truthy_string criterion) (prop !! key)) l), w).
Proof.
  intros Hl. destruct (truthy_string criterion) as [query|]; simpl.
  - unfold lift. f_equal.
    apply (filter_throwing_total _ _ (λ prop, ∃ s, prop !! key = Some (VStr s))); [|done].
    intros x [s Hs]. unfold field_includes. by rewrite Hs.
  - unfold ret. by rewrite filter_true.
Qed.

Lemma at_least_stage key criterion (l : list Property) :
  Forall (λ prop, ∃ n, prop !! key = Some (VNum n)) l →
  match truthy_number criterion with
  | Some bound => List.filter (λ prop, js_ge (prop !! key) bound) l
  | None => l
  end
  = List.filter (λ prop, at_least (truthy_number criterion) (prop !! key)) l.
Proof.
  intros Hl. destruct (truthy_number criterion) as [bound|]; simpl.
  - induction Hl as [|a l [n Ha] Hl IH]; simpl; [done|].
    unfold js_ge at 1. rewrite Ha. simpl. by rewrite IH.
  - by rewrite filter_true.
Qed.

Lemma at_most_stage key criterion (l : list Property) :
  Forall (λ prop, ∃ n, prop !! key = Some (VNum n)) l →
  match truthy_number criterion with
  | Some bound => List.filter (λ prop, js_le (prop !! key) bound) l
  | None => l
  end
  = List.filter (λ prop, at_most (truthy_number criterion) (prop !! key)) l.
Proof.
  intros Hl. destruct (truthy_number criterion) as [bound|]; simpl.
  - induction Hl as [|a l [n Ha] Hl IH]; simpl; [done|].
    unfold js_le at 1. rewrite Ha. simpl. by rewrite IH.
  - by rewrite filter_true.
Qed.

Lemma well_typed_fields (l : list Property) :
  Forall well_typed l →
  Forall (λ prop, ∃ s, prop !! "propertyType" = Some (VStr s)) l ∧
  Forall (λ prop, ∃ s, prop !! "location" = Some (VStr s)) l ∧
  Forall (λ prop, ∃ n, prop !! "price" = Some (VNum n)) l ∧
  Forall (λ prop, ∃ n, prop !! "beds" = Some (VNum n)) l ∧
  Forall (λ prop, ∃ n, prop !! "baths" = Some (VNum n)) l.
Proof.
  intros H. repeat split; eapply Forall_impl; try exact H; intros a (?&?&?&?&?); done.
Qed.

(** C4, amended. On a collection whose records carry a text category and
    location and numeric price, beds and baths, [searchProperties] returns
    exactly the records that match all criteria the evaluator acts on, in the
    stored order: the criteria supplied with a truthy value (a zero number or
    an empty string counts as not supplied), category and location as
    case-insensitive substring matches, minPrice and maxPrice as inclusive
    bounds, beds and baths as lower bounds.  With no criterion in effect it
    returns the loaded collection as it is, whatever the records carry, and
    the search never changes the file. *)
Theorem searchProperties_spec E (f : Filters) w :
  (Forall well_typed (loaded E w) →
     searchProperties E f w
     = (Ok (List.filter (spec_matches (effective f)) (loaded E w)), after_load E w)) ∧
  (effective f = no_filters →
     searchProperties E f w = (Ok (loaded E w), after_load E w)) ∧
  file (after_load E w) = file w.
Proof.
  split; [|split].
  - intros Hwt. unfold searchProperties.
    unfold bind at 1. rewrite readProperties_loaded.
    set (l := loaded E w) in *.
    assert (Hloc : ∀ g,
      Forall (λ prop : Property, ∃ s, prop !! "location" = Some (VStr s)) (List.filter g l)).
    { intros g. by destruct (well_typed_fields _ (Forall_filter well_typed g l Hwt))
        as (_ & ? & _). }
    assert (Hnum : ∀ g,
      Forall (λ prop : Property, ∃ n, prop !! "price" = Some (VNum n)) (List.filter g l)).
    { intros g. by destruct (well_typed_fields _ (Forall_filter well_typed g l Hwt))
        as (_ & _ & ? & _). }
    assert (Hbeds : ∀ g,
      Forall (λ prop : Property, ∃ n, prop !! "beds" = Some (VNum n)) (List.filter g l)).
    { intros g. by destruct (well_typed_fields _ (Forall_filter well_typed g l Hwt))
        as (_ & _ & _ & ? & _). }
    assert (Hbaths : ∀ g,
      Forall (λ prop : Property, ∃ n, prop !! "baths" = Some (VNum n)) (List.filter g l)).
    { intros g. by destruct (well_typed_fields _ (Forall_filter well_typed g l Hwt))
        as (_ & _ & _ & _ & ?). }
    destruct (well_typed_fields l Hwt) as (Hty & _).
    unfold bind at 1. rewrite (text_stage "propertyType" _ l _ Hty).
    unfold bind at 1. rewrite text_stage by apply Hloc.
    rewrite filter_filter.
    rewrite (at_least_stage "price" (minPrice f) _ (Hnum _)), filter_filter.
    rewrite (at_most_stage "price" (maxPrice f) _ (Hnum _)), filter_filter.
    rewrite (at_least_stage "beds" (beds f) _ (Hbeds _)), filter_filter.
    rewrite (at_least_stage "baths" (baths f) _ (Hbaths _)), filter_filter.
    done.
  - intros Hnone. unfold searchProperties.
    injection Hnone as -> -> -> -> -> ->.
    unfold bind at 1. rewrite readProperties_loaded. done.
  - unfold after_load.
    destruct (readProperties_inv E w) as (ps & w' & -> & Hfile & _). done.
Qed.

(** C10. A numeric criterion that equals zero changes nothing: for each
    of minPrice, maxPrice, beds and baths, the search with the criterion set
    to 0 is the search with the criterion omitted, on every world and with
    every setting of the other criteria. *)
Theorem searchProperties_zero_threshold E (f : Filters) w :
  searchProperties E (with_minPrice (Some 0) f) w = searchProperties E (with_minPrice None f) w ∧
  searchProperties E (with_maxPrice (Some 0) f) w = searchProperties E (with_maxPrice None f) w ∧
  searchProperties E (with_beds (Some 0) f) w = searchProperties E (with_beds None f) w ∧
  searchProperties E (with_baths (Some 0) f) w = searchProperties E (with_baths None f) w.
Proof. repeat split; reflexivity. Qed.

(** ** Update *)

Lemma merged_lookup (updateData existing : Property) (stamp : Value) key :
  key ≠ "updatedAt" →
  (<["updatedAt" := stamp]> (updateData ∪ existing)) !! key
  = match updateData !! key with Some v => Some v | None => existing !! key end.
Proof.
  intros Hne. rewrite lookup_insert_ne by done. rewrite lookup_union.
  destruct (updateData !! key), (existing !! key); done.
Qed.

Lemma updateProperty_run E id (updateData : Property) w :
  updateProperty E id updateData w =
  match list_find (λ prop, has_id id prop = true) (loaded E w) with
  | None => (Ok None, after_load E w)
  | Some (index, existing) =>
      let merged : Property :=
        <["updatedAt" := VStr (toISOString (time_at E (ticks w)))]> (updateData ∪ existing) in
      let properties := <[index := merged]> (loaded E w) in
      match writeProperties E properties (tick (after_load E w)) with
      | (Ok true, w') => (Ok (properties !! index), w')
      | (Ok false, w') => (Throw "Failed to update property", w')
      | (Throw e, w') => (Throw e, w')
      end
  end.
Proof.
  destruct (after_load_inv E w) as (_ & Hticks & _).
  unfold updateProperty, bind at 1. rewrite readProperties_loaded.
  destruct (list_find _ (loaded E w)) as [[index existing]|]; [|done].
  unfold bind, Date_now. rewrite Hticks. cbv zeta.
  destruct (writeProperties E _ _) as [[[]|] w']; done.
Qed.

(** C3, amended. When no loaded record has the id, [updateProperty]
    returns [None] and the file is unchanged.  Otherwise the first record
    with the id is replaced by the merge of the update over it: every key
    other than [updatedAt] has the supplied value when one is supplied and
    keeps the existing value when none is, and [updatedAt] is the timestamp
    of the clock reading taken by the call.  Then either the write succeeds,
    the file holds the collection with that record replaced and the merged
    record is returned, or the write fails and the call raises; on a disk
    without faults the write succeeds. *)
Theorem updateProperty_spec E id (updateData : Property) w :
  let stored := loaded E w in
  let now := time_at E (ticks w) in
  match list_find (λ prop, has_id id prop = true) stored with
  | None =>
      updateProperty E id updateData w = (Ok None, after_load E w) ∧
      file (after_load E w) = file w
  | Some (index, existing) =>
      let merged : Property :=
        <["updatedAt" := VStr (toISOString now)]> (updateData ∪ existing) in
      (∀ key, key ≠ "updatedAt" →
         merged !! key
         = match updateData !! key with Some v => Some v | None => existing !! key end) ∧
      merged !! "updatedAt" = Some (VStr (toISOString now)) ∧
      (∃ w',
         (updateProperty E id updateData w = (Ok (Some merged), w') ∧
          file w' = Stored (<[index := merged]> stored)) ∨
         updateProperty E id updateData w = (Throw "Failed to update property", w')) ∧
      ((∀ k, fault_at E k = None) →
         ∃ w', updateProperty E id updateData w = (Ok (Some merged), w') ∧
               file w' = Stored (<[index := merged]> stored))
  end.
Proof.
  intros stored now.
  destruct (after_load_inv E w) as (Hfile & Hticks & _ & _).
  rewrite updateProperty_run. fold stored now.
  destruct (list_find _ stored) as [[index existing]|] eqn:Hfind; [|done].
  cbv zeta. set (merged := <["updatedAt" := _]> (updateData ∪ existing)).
  apply list_find_Some in Hfind as (Hidx & _ & _).
  split; [intros key Hne; by apply merged_lookup|].
  split; [apply lookup_insert_eq|].
  destruct (writeProperties_inv E (<[index := merged]> stored) (tick (after_load E w)))
    as (b & w' & Hw & Hf & _ & _ & _ & _ & _ & _ & Hok & _).
  assert (Hget : <[index := merged]> stored !! index = Some merged).
  { apply list_lookup_insert_eq. by eapply lookup_lt_Some. }
  assert (Hst : b = true → file w' = Stored (<[index := merged]> stored)).
  { intros ->. by destruct Hf as [?|(? & _)]. }
  rewrite Hw, Hget. split.
  - exists w'. destruct b; [left|right]; [|done]. split; [done|]. by apply Hst.
  - intros Hno. exists w'. rewrite (Hok Hno) in *. split; [done|]. by apply Hst.
Qed.

(** ** Identifiers *)

Lemma split_at_first c a a' b b' :
  free_of c a = true → free_of c a' = true →
  a +:+ String c b = a' +:+ String c b' → a = a' ∧ b = b'.
Proof.
  revert a'. induction a as [|x a IH]; intros [|y a'] Ha Ha' Heq; simpl in *.
  - by injection Heq.
  - injection Heq as <- _. rewrite Ascii.eqb_refl in Ha'. done.
  - injection Heq as -> _. rewrite Ascii.eqb_refl in Ha. done.
  - injection Heq as -> Heq.
    apply andb_true_iff in Ha as [_ Ha]. apply andb_true_iff in Ha' as [_ Ha'].
    destruct (IH a' Ha Ha' Heq) as [-> ->]. done.
Qed.

Lemma free_of_pretty_N_go x s :
  free_of "_" s = true → free_of "_" (pretty_N_go x s) = true.
Proof.
  revert s. induction (N.lt_wf_0 x) as [x _ IH]; intros s Hs.
  destruct (decide (x = 0)%N) as [->|Hx].
  - by rewrite pretty_N_go_0.
  - rewrite pretty_N_go_step by lia. apply IH.
    + apply N.div_lt; lia.
    + simpl. rewrite Hs, andb_true_r.
      unfold pretty_N_char. by repeat case_match.
Qed.

Lemma free_of_pretty_Z (t : Z) : free_of "_" (pretty t) = true.
Proof.
  assert (HN : ∀ n : N, free_of "_" (pretty n) = true).
  { intros n. unfold pretty, pretty_N. case_decide; [done|].
    by apply free_of_pretty_N_go. }
  destruct t as [|p|p]; [done|apply HN|].
  unfold pretty, pretty_Z. simpl. apply HN.
Qed.

Lemma property_id_inj t s t' s' :
  property_id t s = property_id t' s' → t = t' ∧ s = s'.
Proof.
  unfold property_id. intros Heq. simpl in Heq.
  injection Heq as Heq.
  apply split_at_first in Heq as [Ht ->]; try apply free_of_pretty_Z.
  split; [|done]. by apply (inj pretty).
Qed.

(** ** Sequences of operations *)

Lemma saveProperty_run E (propertyData : Property) w :
  saveProperty E propertyData w =
  match writeProperties E (loaded E w ++ [new_record E propertyData w])
          (tick (tick (roll (tick (after_load E w))))) with
  | (Ok true, w') => (Ok (new_record E propertyData w), w')
  | (Ok false, w') => (Throw "Failed to save property", w')
  | (Throw e, w') => (Throw e, w')
  end.
Proof.
  destruct (after_load_inv E w) as (_ & Hticks & Hrolls & _).
  unfold saveProperty, bind at 1. rewrite readProperties_loaded.
  unfold bind, Date_now, Math_random_suffix. simpl. rewrite Hticks, Hrolls.
  unfold new_record, property_id.
  destruct (writeProperties E _ _) as [[[]|] w']; done.
Qed.

(** The records in the file after a write. *)
Lemma writeProperties_collection E ps w :
  ∃ b w', writeProperties E ps w = (Ok b, w') ∧
    if b then file w' = Stored ps
    else collection w' = collection w ∨ collection w' = [].
Proof.
  destruct (writeProperties_inv E ps w) as (b & w' & Hw & Hf & _).
  exists b, w'. split; [done|]. destruct b.
  - by destruct Hf as [?|(? & _)].
  - destruct Hf as [Hf|(_ & remains & Hf)]; [left|right]; unfold collection; by rewrite Hf.
Qed.

Lemma exec_Create E (propertyData : Property) w :
  (exec E (Create propertyData) w).1 = None ∧
    (collection (exec E (Create propertyData) w).2 = collection w
     ∨ collection (exec E (Create propertyData) w).2 = [])
  ∨ (exec E (Create propertyData) w).1 = Some (new_record E propertyData w) ∧
    ∃ kept, (kept = [] ∨ kept = collection w) ∧
      collection (exec E (Create propertyData) w).2
      = (kept ++ [new_record E propertyData w])%list.
Proof.
  unfold exec. rewrite saveProperty_run.
  destruct (after_load_inv E w) as (Hfile & _).
  destruct (writeProperties_collection E (loaded E w ++ [new_record E propertyData w])
              (tick (tick (roll (tick (after_load E w))))))
    as (b & w' & -> & Hf).
  destruct b; simpl.
  - right. split; [done|]. exists (loaded E w). split; [apply loaded_collection|].
    unfold collection. by rewrite Hf.
  - left. split; [done|]. destruct Hf as [Hf|Hf]; [left|by right].
    rewrite Hf. by apply collection_file.
Qed.

Lemma exec_Update E id (updateData : Property) w :
  (exec E (Update id updateData) w).1 = None ∧
  (collection (exec E (Update id updateData) w).2 = collection w
   ∨ collection (exec E (Update id updateData) w).2 = []
   ∨ ∃ index existing,
       collection w !! index = Some existing ∧
       collection (exec E (Update id updateData) w).2
       = <[index := merged_record E updateData existing w]> (collection w)).
Proof.
  unfold exec. split; [done|]. simpl. rewrite updateProperty_run.
  destruct (after_load_inv E w) as (Hfile & _).
  destruct (list_find _ (loaded E w)) as [[index existing]|] eqn:Hfind.
  - apply list_find_Some in Hfind as (Hidx & _ & _). cbv zeta.
    fold (merged_record E updateData existing w).
    destruct (writeProperties_collection E
                (<[index := merged_record E updateData existing w]> (loaded E w))
                (tick (after_load E w))) as (b & w' & -> & Hf).
    destruct (loaded_collection E w) as [Hl|Hl]; [by rewrite Hl in Hidx|].
    rewrite Hl in *. destruct b; simpl.
    + right. right. exists index, existing. split; [done|]. unfold collection at 1.
      by rewrite Hf.
    + destruct Hf as [Hf|Hf]; [left|by right; left].
      rewrite Hf. by apply collection_file.
  - left. by apply collection_file.
Qed.

Lemma exec_Delete E id w :
  (exec E (Delete id) w).1 = None ∧
  (collection (exec E (Delete id) w).2 = collection w
   ∨ collection (exec E (Delete id) w).2 = []
   ∨ collection (exec E (Delete id) w).2
     = List.filter (λ prop, negb (has_id id prop)) (collection w)).
Proof.
  unfold exec. split; [done|]. simpl.
  destruct (deleteProperty_file E id w) as [Hf|[(_ & Hf)|(remains & Hf)]].
  - left. by apply collection_file.
  - right. right. unfold collection at 1. by rewrite Hf.
  - right. left. unfold collection. by rewrite Hf.
Qed.

Lemma new_record_id E (propertyData : Property) w :
  propertyData !! "id" = None →
  new_record E propertyData w !! "id"
  = Some (VStr (property_id (time_at E (ticks w)) (suffix_at E (rolls w)))).
Proof.
  intros Hid. unfold new_record.
  rewrite !lookup_insert_ne by done.
  rewrite lookup_union_r by done. apply lookup_singleton_eq.
Qed.

Lemma merged_record_keeps E (updateData existing : Property) w key :
  key ≠ "updatedAt" → updateData !! key = None →
  merged_record E updateData existing w !! key = existing !! key.
Proof.
  intros Hne Hnone. unfold merged_record. rewrite merged_lookup by done. by rewrite Hnone.
Qed.

Lemma elem_of_insert_inv {A} (l : list A) i x y :
  x ∈ <[i := y]> l → x = y ∨ x ∈ l.
Proof.
  revert i. induction l as [|a l IH]; intros [|i]; simpl; auto.
  - intros [->|?]%elem_of_cons; [by left|]. right. by apply elem_of_cons; right.
  - intros [->|H]%elem_of_cons.
    + right. apply elem_of_cons. by left.
    + destruct (IH i H) as [->|?]; [by left|]. right. apply elem_of_cons. by right.
Qed.

Lemma elem_of_filter_inv {A} (g : A → bool) (l : list A) x :
  x ∈ List.filter g l → x ∈ l.
Proof. rewrite !list_elem_of_In, filter_In. tauto. Qed.

Lemma NoDup_fmap_filter {A B} (f : A → B) (g : A → bool) (l : list A) :
  NoDup (f <$> l) → NoDup (f <$> List.filter g l).
Proof.
  induction l as [|a l IH]; simpl; [done|].
  rewrite NoDup_cons. intros [Ha Hl].
  destruct (g a); [|auto]. simpl. apply NoDup_cons. split; [|auto].
  intros (x & Hx & Hin)%list_elem_of_fmap. apply Ha.
  apply list_elem_of_fmap. exists x. split; [done|]. by eapply elem_of_filter_inv.
Qed.

Lemma store_invariant_draws log ds ds' w :
  (∀ d, d ∈ ds → d ∈ ds') → store_invariant log ds w → store_invariant log ds' w.
Proof.
  intros Hsub (H1 & H2 & H3 & H4). split; [|done].
  intros c Hc. destruct (H1 c Hc) as (t & s & Hd & Hid). eauto.
Qed.

Lemma store_invariant_file log ds w w' :
  collection w' = collection w ∨ collection w' = [] →
  store_invariant log ds w → store_invariant log ds w'.
Proof.
  unfold store_invariant. intros [-> | ->]; [done|]. intros (H1 & H2 & _ & _).
  split; [done|]. split; [done|]. split; [apply NoDup_nil_2|]. by intros r ?%elem_of_nil.
Qed.

Lemma exec_invariant E op w log ds :
  store_invariant log ds w →
  leaves_identity op →
  NoDup (ds ++ draws E [op] w) →
  store_invariant (log ++ option_list (exec E op w).1) (ds ++ draws E [op] w) (exec E op w).2.
Proof.
  intros Hinv Hclean Hnodup.
  assert (Hmono : store_invariant log (ds ++ draws E [op] w) w).
  { eapply store_invariant_draws; [|done]. intros d Hd. apply elem_of_app. by left. }
  destruct op as [propertyData|id updateData|id].
  - (* create *)
    destruct Hclean as [Hid Hcreated].
    destruct (exec_Create E propertyData w) as [[-> Hc]|[-> (kept & Hkept & Hc)]].
    { simpl option_list. rewrite app_nil_r. by eapply store_invariant_file. }
    set (w1 := (exec E (Create propertyData) w).2) in *.
    simpl in Hnodup |- *.
    set (new := new_record E propertyData w) in *.
    set (draw := (time_at E (ticks w), suffix_at E (rolls w))) in *.
    pose proof (new_record_id E propertyData w Hid) as Hnew. fold new in Hnew.
    destruct Hinv as (H1 & H2 & H3 & H4).
    assert (Hfresh : ∀ c, c ∈ log → id_of c ≠ id_of new).
    { intros c Hc' Heq. destruct (H1 c Hc') as (t & s & Hd & Hcid).
      unfold id_of in Heq. rewrite Hcid, Hnew in Heq.
      assert (Hpid : property_id t s
                     = property_id (time_at E (ticks w)) (suffix_at E (rolls w)))
        by congruence.
      apply property_id_inj in Hpid as [-> ->].
      apply NoDup_app in Hnodup as (_ & Hdisj & _).
      apply (Hdisj _ Hd). apply list_elem_of_singleton. done. }
    assert (Hkept_old : ∀ r, r ∈ kept → r ∈ collection w).
    { intros r Hr. destruct Hkept as [-> | ->]; [by apply elem_of_nil in Hr|done]. }
    split; [|split; [|split]].
    + intros c [Hc' | ->%list_elem_of_singleton]%elem_of_app.
      * destruct (H1 c Hc') as (t & s & Hd & Hcid). exists t, s. split; [|done].
        apply elem_of_app. by left.
      * exists (time_at E (ticks w)), (suffix_at E (rolls w)). split; [|done].
        apply elem_of_app. right. by apply list_elem_of_singleton.
    + rewrite fmap_app. apply NoDup_app. split; [done|]. split; [|apply NoDup_singleton].
      intros x (c & -> & Hc')%list_elem_of_fmap Hx. simpl in Hx.
      apply list_elem_of_singleton in Hx. by apply (Hfresh c Hc').
    + rewrite Hc, fmap_app. apply NoDup_app. split; [|split; [|apply NoDup_singleton]].
      * destruct Hkept as [-> | ->]; [apply NoDup_nil_2|done].
      * intros x (r & -> & Hr)%list_elem_of_fmap Hx. simpl in Hx.
        apply list_elem_of_singleton in Hx.
        destruct (H4 r (Hkept_old r Hr)) as (c & Hc' & Hrid & _).
        apply (Hfresh c Hc'). unfold id_of in *. congruence.
    + rewrite Hc. intros r [Hr | ->%list_elem_of_singleton]%elem_of_app.
      * destruct (H4 r (Hkept_old r Hr)) as (c & Hc' & ? & ?). exists c.
        split; [|done]. apply elem_of_app. by left.
      * exists new. split; [|done]. apply elem_of_app. right. by apply list_elem_of_singleton.
  - (* update *)
    destruct Hclean as [Hid Hcreated].
    destruct (exec_Update E id updateData w)
      as [-> [Hc|[Hc|(index & existing & Hidx & Hc)]]];
      simpl option_list; rewrite app_nil_r.
    { eapply store_invariant_file; [by left|done]. }
    { eapply store_invariant_file; [by right|done]. }
    destruct Hmono as (H1 & H2 & H3 & H4).
    set (merged := merged_record E updateData existing w) in *.
    assert (Hmid : merged !! "id" = existing !! "id").
    { by apply merged_record_keeps. }
    assert (Hmcr : merged !! "createdAt" = existing !! "createdAt").
    { by apply merged_record_keeps. }
    split; [done|]. split; [done|]. split.
    + rewrite Hc, list_fmap_insert, list_insert_id; [done|].
      rewrite list_lookup_fmap, Hidx. simpl. unfold id_of. by rewrite Hmid.
    + rewrite Hc. intros r [->|Hr]%elem_of_insert_inv; [|auto].
      destruct (H4 existing) as (c & Hc' & ? & ?).
      { apply list_elem_of_lookup. eauto. }
      exists c. split; [done|]. split; congruence.
  - (* delete *)
    destruct (exec_Delete E id w) as [-> [Hc|[Hc|Hc]]]; simpl option_list;
      rewrite app_nil_r.
    { eapply store_invariant_file; [by left|done]. }
    { eapply store_invariant_file; [by right|done]. }
    destruct Hmono as (H1 & H2 & H3 & H4).
    split; [done|]. split; [done|]. rewrite Hc. split.
    + by apply NoDup_fmap_filter.
    + intros r Hr%elem_of_filter_inv. auto.
Qed.

Lemma draws_cons E op rest w :
  draws E (op :: rest) w = (draws E [op] w ++ draws E rest (exec E op w).2)%list.
Proof. destruct op; done. Qed.

Lemma run_cons E op rest w :
  run E (op :: rest) w
  = ((option_list (exec E op w).1 ++ (run E rest (exec E op w).2).1)%list,
     (run E rest (exec E op w).2).2).
Proof.
  cbn [run]. destruct (exec E op w) as [[c|] w1]; cbn [fst snd];
    destruct (run E rest w1); reflexivity.
Qed.

Lemma run_invariant E ops : ∀ w log ds,
  store_invariant log ds w →
  Forall leaves_identity ops →
  NoDup (ds ++ draws E ops w) →
  store_invariant (log ++ (run E ops w).1) (ds ++ draws E ops w) (run E ops w).2.
Proof.
  induction ops as [|op rest IH]; intros w log ds Hinv Hclean Hnodup.
  - simpl. by rewrite !app_nil_r.
  - apply Forall_cons in Hclean as [Hop Hrest].
    rewrite draws_cons in Hnodup |- *. rewrite run_cons. cbn [fst snd].
    rewrite app_assoc in Hnodup.
    assert (Hstep : store_invariant (log ++ option_list (exec E op w).1)
                      (ds ++ draws E [op] w) (exec E op w).2).
    { apply exec_invariant; [done|done|]. by apply NoDup_app in Hnodup as (? & _). }
    pose proof (IH _ _ _ Hstep Hrest Hnodup) as Hfinal.
    by rewrite <- !app_assoc in Hfinal.
Qed.

Lemma run_keeps_identifiers E ops w0 :
  file w0 = Absent →
  Forall leaves_identity ops →
  NoDup (draws E ops w0) →
  let created := (run E ops w0).1 in
  let final := (run E ops w0).2 in
  NoDup (id_of <$> created) ∧
  (∀ c, c ∈ created →
     ∃ t s, (t, s) ∈ draws E ops w0 ∧ c !! "id" = Some (VStr (property_id t s))) ∧
  NoDup (id_of <$> collection final) ∧
  (∀ r, r ∈ collection final →
     ∃ c, c ∈ created ∧ r !! "id" = c !! "id" ∧ r !! "createdAt" = c !! "createdAt").
Proof.
  intros Hfresh Hclean Hnodup created final.
  assert (Hinit : store_invariant [] [] w0).
  { unfold store_invariant, collection. rewrite Hfresh. simpl.
    split; [by intros c ?%elem_of_nil|]. split; [apply NoDup_nil_2|].
    split; [apply NoDup_nil_2|]. by intros r ?%elem_of_nil. }
  destruct (run_invariant E ops w0 [] [] Hinit Hclean Hnodup) as (H1 & H2 & H3 & H4).
  simpl in *. done.
Qed.

(** C6, amended. From a first run (no durable file), across every
    sequence of creates, updates and deletes whose attribute maps name
    neither [id] nor [createdAt] and whose creates draw pairwise different
    pairs of clock reading and random suffix: the records created carry
    pairwise different ids, each composed from the draw of its create, so no
    id is issued twice, deletions included; the stored records carry pairwise
    different ids; and every stored record carries the [id] and the
    [createdAt] of a record as it was created, so no update or delete changed
    them. *)
Theorem identifiers_stable E ops w0 :
  file w0 = Absent →
  Forall leaves_identity ops →
  NoDup (draws E ops w0) →
  let created := (run E ops w0).1 in
  let final := (run E ops w0).2 in
  NoDup (id_of <$> created) ∧
  (∀ c, c ∈ created →
     ∃ t s, (t, s) ∈ draws E ops w0 ∧ c !! "id" = Some (VStr (property_id t s))) ∧
  NoDup (id_of <$> collection final) ∧
  (∀ r, r ∈ collection final →
     ∃ c, c ∈ created ∧ r !! "id" = c !! "id" ∧ r !! "createdAt" = c !! "createdAt").
Proof. exact (run_keeps_identifiers E ops w0). Qed.

(** ** Worked instances *)

(** [includes] is the substring test. *)
Lemma includes_spec hay needle :
  includes hay needle = true ↔ ∃ before after, hay = before +:+ needle +:+ after.
Proof.
  induction hay as [|c hay IH]; simpl.
  - destruct needle as [|d needle]; simpl.
    + split; [|done]. intros _. by exists "", "".
    + split; [done|]. intros ([|? before] & after & Heq); done.
  - destruct (startsWith needle (String c hay)) eqn:Hstart.
    + split; [|done]. intros _.
      apply startsWith_spec in Hstart as [after ->]. by exists "", after.
    + rewrite IH. split.
      * intros (before & after & ->). by exists (String c before), after.
      * intros ([|d before] & after & Heq).
        -- assert (startsWith needle (String c hay) = true); [|congruence].
           apply startsWith_spec. exists after. exact Heq.
        -- injection Heq as -> ->. by exists before, after.
Qed.

Example processImages_goes_on_after_a_failure :
  (processImages ticking_env [good_image; bad_image; good_image] UPLOAD_DIR fresh_world).1
  = Ok {| Batch.success := false;
          Batch.processedImages :=
            [{| Processed.index := 0;
                Processed.filename := "1700000000000_0011223344556600.png";
                Processed.filepath := "uploads/images/1700000000000_0011223344556600.png";
                Processed.size := 12; Processed.originalName := "front.png" |};
             {| Processed.index := 2;
                Processed.filename := "1700000000001_0011223344556601.png";
                Processed.filepath := "uploads/images/1700000000001_0011223344556601.png";
                Processed.size := 12; Processed.originalName := "front.png" |}];
          Batch.errors :=
            [{| ImageError.index := 1; ImageError.originalName := None;
                ImageError.errors :=
                  ["Image name is required";
                   "Invalid image type. Only JPEG, PNG, and WebP are allowed"] |}] |}.
Proof. vm_compute. reflexivity. Qed.

Example validateImageData_accepts_good_image :
  validateImageData good_image = {| Validation.isValid := true; Validation.errors := [] |}.
Proof. reflexivity. Qed.

Example readProperties_logs_corruption :
  readProperties ticking_env (set_file (Unreadable "Unexpected token") (world_with []))
  = (Ok [],
     log (LogError "Error reading properties:" "Unexpected token")
       (set_file (Unreadable "Unexpected token") (world_with []))).
Proof. vm_compute. reflexivity. Qed.

(** A delete whose write fails on a full disk answers [false], and the
    file that held the record is left truncated. *)
Example deleteProperty_on_a_full_disk :
  (deleteProperty full_disk_env "PROP_1" (world_with [listed_flat])).1 = Ok false ∧
  file (deleteProperty full_disk_env "PROP_1" (world_with [listed_flat])).2
  = Unreadable "Unexpected end of JSON input".
Proof. split; vm_compute; reflexivity. Qed.

Example searchProperties_zero_maxPrice_returns_all :
  (searchProperties ticking_env (only_maxPrice 0) (world_with [flat; villa])).1
  = (searchProperties ticking_env no_filters (world_with [flat; villa])).1.
Proof. vm_compute. reflexivity. Qed.

Example to_number_cases :
  to_number (Some (VNum 7)) = Some 7 ∧
  to_number (Some (VStr " 42 ")) = Some 42 ∧
  to_number (Some (VStr "-7")) = Some (-7) ∧
  to_number (Some (VStr "")) = Some 0 ∧
  to_number (Some (VStr "4x")) = None ∧
  to_number (Some VNull) = Some 0 ∧
  to_number (Some (VArr [VNum 5])) = Some 5 ∧
  to_number (Some (VArr [VNum 1; VNum 2])) = None ∧
  to_number None = None.
Proof. repeat split; vm_compute; reflexivity. Qed.

Example strip_data_uri_cases :
  strip_data_uri "data:image/png;base64,iVBORw0KGgo=" = "iVBORw0KGgo=" ∧
  strip_data_uri "data:image/;base64,AAAA" = "data:image/;base64,AAAA" ∧
  strip_data_uri "iVBORw0KGgo=" = "iVBORw0KGgo=".
Proof. repeat split; vm_compute; reflexivity. Qed.

Example includes_is_case_sensitive :
  includes "Flat in Leeds" "leeds" = false ∧
  includes (toLowerCase "Flat in Leeds") (toLowerCase "LEEDS") = true.
Proof. split; reflexivity. Qed.

Example toISOString_epoch : toISOString 0 = "1970-01-01T00:00:00.000Z".
Proof. vm_compute. reflexivity. Qed.

Example toISOString_leap_day : toISOString 951782400000 = "2000-02-29T00:00:00.000Z".
Proof. vm_compute. reflexivity. Qed.

(** Fifty creates in a row on a healthy disk with a ticking clock: all fifty
    records are listed afterwards, under fifty different identifiers. *)
Example fifty_creates_all_listed :
  let w := (run ticking_env (replicate 50 (Create flat)) fresh_world).2 in
  length (collection w) = 50%nat ∧ NoDup (id_of <$> collection w).
Proof.
  cbv zeta. split.
  - vm_compute. reflexivity.
  - apply (run_keeps_identifiers ticking_env (replicate 50 (Create flat)) fresh_world).
    + reflexivity.
    + apply Forall_replicate. split; vm_compute; reflexivity.
    + apply (bool_decide_unpack _). vm_compute. exact I.
Qed.

(** A listing with one good and one bad image, submitted on a first run. *)
Lemma addProperty_rejects_failed_batch_witness :
  ∃ errors w',
    addProperty ticking_env (listing_with [good_image; bad_image]) fresh_world
    = (Ok (BadRequest errors), w') ∧
    file w' = file fresh_world ∧
    ∀ i img,
      [good_image; bad_image] !! i = Some img →
      Validation.isValid (validateImageData img) = false →
      {| ImageError.index := i; ImageError.originalName := ImageData.name img;
         ImageError.errors := Validation.errors (validateImageData img) |} ∈ errors ∧
      Validation.errors (validateImageData img) ≠ [].
Proof.
  apply (addProperty_rejects_failed_batch ticking_env
           (listing_with [good_image; bad_image]) fresh_world [good_image; bad_image]).
  - reflexivity.
  - exists bad_image. split; [|reflexivity].
    apply list_elem_of_further, list_elem_of_here.
Defined.

(** A create, an update, a delete and another create, on a clock that
    advances. *)
Lemma identifiers_stable_witness :
  NoDup (id_of <$> (run ticking_env busy_day fresh_world).1) ∧
  (∀ c, c ∈ (run ticking_env busy_day fresh_world).1 →
     ∃ t s, (t, s) ∈ draws ticking_env busy_day fresh_world ∧
            c !! "id" = Some (VStr (property_id t s))) ∧
  NoDup (id_of <$> collection (run ticking_env busy_day fresh_world).2) ∧
  (∀ r, r ∈ collection (run ticking_env busy_day fresh_world).2 →
     ∃ c, c ∈ (run ticking_env busy_day fresh_world).1 ∧
          r !! "id" = c !! "id" ∧ r !! "createdAt" = c !! "createdAt").
Proof.
  apply (identifiers_stable ticking_env busy_day fresh_world).
  - reflexivity.
  - unfold busy_day. repeat (apply Forall_cons; split); try apply Forall_nil;
      vm_compute; auto.
  - apply (bool_decide_unpack _). vm_compute. exact I.
Defined.

(** Flats between 1000 and 2000, out of a flat at 1200 and a villa at 5000. *)
Lemma searchProperties_spec_witness :
  searchProperties ticking_env flats_between_1000_and_2000 (world_with [flat; villa])
  = (Ok [flat], world_with [flat; villa]).
Proof.
  destruct (searchProperties_spec ticking_env flats_between_1000_and_2000
              (world_with [flat; villa])) as (Hmatch & _).
  rewrite Hmatch.
  - vm_compute. reflexivity.
  - assert (Hl : loaded ticking_env (world_with [flat; villa]) = [flat; villa])
      by (vm_compute; reflexivity).
    rewrite Hl.
    repeat (apply Forall_cons; split); try apply Forall_nil;
      repeat split; eexists; vm_compute; reflexivity.
Defined.

(** A new price for the record of the first create. *)
Lemma updateProperty_spec_witness :
  ∃ merged w',
    updateProperty ticking_env first_id new_price (after_first_create ticking_env)
    = (Ok (Some merged), w') ∧
    merged !! "price" = Some (VNum 500) ∧
    merged !! "location" = Some (VStr "Leeds") ∧
    merged !! "updatedAt" = Some (VStr "2023-11-14T22:13:20.003Z").
Proof.
  pose proof (updateProperty_spec ticking_env first_id new_price
                (after_first_create ticking_env)) as Hspec.
  assert (Hfind : list_find (λ prop, has_id first_id prop = true)
                    (loaded ticking_env (after_first_create ticking_env))
                  = Some (0%nat, new_record ticking_env flat fresh_world))
    by (vm_compute; reflexivity).
  cbv zeta in Hspec. rewrite Hfind in Hspec.
  destruct Hspec as (Hkeys & Hstamp & _ & Hwrite).
  destruct Hwrite as (w' & Hrun & _); [reflexivity|].
  eexists _, w'. split; [exact Hrun|]. split; [|split].
  - rewrite Hkeys by done. reflexivity.
  - rewrite Hkeys by done. reflexivity.
  - rewrite Hstamp. reflexivity.
Defined.


(** C3 as stated fails.  An update in the millisecond of the create leaves
    [updatedAt] equal to the earlier value, not greater; a supplied
    [updatedAt] does not overwrite; and on a full disk the update raises
    instead of returning the record. *)
Lemma updateProperty_not_strictly_later :
  (∃ existing merged w',
     getPropertyById frozen_env frozen_id (after_first_create frozen_env)
     = (Ok (Some existing), after_first_create frozen_env) ∧
     updateProperty frozen_env frozen_id new_price (after_first_create frozen_env)
     = (Ok (Some merged), w') ∧
     merged !! "updatedAt" = existing !! "updatedAt" ∧
     ¬ timestamp_lt (existing !! "updatedAt") (merged !! "updatedAt")) ∧
  (∃ merged w',
     updateProperty ticking_env first_id forged_stamp (after_first_create ticking_env)
     = (Ok (Some merged), w') ∧
     merged !! "updatedAt" = Some (VStr "2023-11-14T22:13:20.003Z") ∧
     forged_stamp !! "updatedAt" = Some (VStr "2099-01-01T00:00:00.000Z")) ∧
  (updateProperty full_disk_env first_id new_price
     (world_with [<["id" := VStr first_id]> flat])).1
  = Throw "Failed to update property".
Proof.
  split; [|split].
  - exists (new_record frozen_env flat fresh_world),
      (merged_record frozen_env new_price (new_record frozen_env flat fresh_world)
         (after_first_create frozen_env)),
      (updateProperty frozen_env frozen_id new_price (after_first_create frozen_env)).2.
    split; [vm_compute; reflexivity|]. split; [vm_compute; reflexivity|].
    split; [vm_compute; reflexivity|]. vm_compute. discriminate.
  - exists (merged_record ticking_env forged_stamp (new_record ticking_env flat fresh_world)
              (after_first_create ticking_env)),
      (updateProperty ticking_env first_id forged_stamp (after_first_create ticking_env)).2.
    split; [vm_compute; reflexivity|]. split; vm_compute; reflexivity.
  - vm_compute. reflexivity.
Qed.

(** C4 as stated fails.  With [maxPrice] supplied as 0 the evaluator
    returns records priced above 0, none of which matches the criterion; and
    a location criterion raises on a record without a location. *)
Lemma searchProperties_not_all_supplied :
  (searchProperties ticking_env (only_maxPrice 0) (world_with [flat; villa])).1
  = Ok [flat; villa] ∧
  List.filter (spec_matches (only_maxPrice 0)) [flat; villa] = [] ∧
  (searchProperties ticking_env (only_location "bath") (world_with [flat; plot])).1
  = Throw "Cannot read properties of undefined (reading 'toLowerCase')".
Proof. split; [|split]; vm_compute; reflexivity. Qed.

(** C6 as stated fails.  Two creates that draw the same clock reading and
    suffix get the same id; an update that supplies [id] and [createdAt]
    replaces both, after which the old id finds nothing; and a create that
    supplies [id] keeps the supplied one. *)
Lemma identifiers_not_stable :
  id_of <$> (run frozen_env [Create flat; Create villa] fresh_world).1
  = [Some (VStr frozen_id); Some (VStr frozen_id)] ∧
  (∃ merged w',
     updateProperty ticking_env first_id forged_identity (after_first_create ticking_env)
     = (Ok (Some merged), w') ∧
     merged !! "id" = Some (VStr "PROP_X") ∧
     merged !! "createdAt" = Some (VStr "1999-01-01T00:00:00.000Z") ∧
     getPropertyById ticking_env first_id w' = (Ok None, w')) ∧
  (∃ created w',
     saveProperty ticking_env forged_identity fresh_world = (Ok created, w') ∧
     created !! "id" = Some (VStr "PROP_X")).
Proof.
  split; [vm_compute; reflexivity|]. split.
  - exists (merged_record ticking_env forged_identity (new_record ticking_env flat fresh_world)
              (after_first_create ticking_env)),
      (updateProperty ticking_env first_id forged_identity (after_first_create ticking_env)).2.
    split; [vm_compute; reflexivity|]. split; [vm_compute; reflexivity|].
    split; vm_compute; reflexivity.
  - exists (new_record ticking_env forged_identity fresh_world),
      (saveProperty ticking_env forged_identity fresh_world).2.
    split; vm_compute; reflexivity.
Qed.

(** * Round trips, outcomes and the handlers by id *)

(** ** The durable file, written and read back *)

Lemma readProperties_stored E w ps :
  file w = Stored ps → DATA_DIR ∈ dirs w → readProperties E w = (Ok ps, w).
Proof.
  intros Hf Hd. unfold_m. rewrite bool_decide_eq_true_2 by done. simpl.
  rewrite Hf. simpl. by rewrite Hf.
Qed.

Lemma readProperties_unreadable E w reason :
  file w = Unreadable reason → (readProperties E w).1 = Ok [].
Proof.
  intros Hf. destruct (readProperties_inv E w) as (ps & w' & -> & _ & _ & _ & _ & _ & _ & Hc).
  simpl. destruct Hc as [->|(Hst & _)]; [done|]. rewrite Hf in Hst. discriminate.
Qed.

Lemma writeProperties_cases E ps w :
  ∃ w',
    (writeProperties E ps w = (Ok true, w') ∧ file w' = Stored ps ∧ DATA_DIR ∈ dirs w' ∧
     console w' = console w)
    ∨ (writeProperties E ps w = (Ok false, w') ∧
       (file w' = file w ∨ ∃ remains, file w' = Unreadable (json_error E remains)) ∧
       ∃ detail, console w' = (console w ++ [LogError "Error writing properties:" detail])%list).
Proof.
  destruct (writeProperties_inv E ps w)
    as (b & w' & Hw & Hf & _ & _ & _ & _ & _ & Hd & _ & Hlog & _).
  exists w'. destruct b; [left|right]; (split; [done|]).
  - split; [by destruct Hf as [?|(? & _)]|]. split; [by apply Hd|done].
  - split; [|done]. destruct Hf as [Hf|(_ & Hf)]; [by left|by right].
Qed.

Lemma writeProperties_healthy E ps w :
  (∀ k, fault_at E k = None) →
  ∃ w', writeProperties E ps w = (Ok true, w') ∧ file w' = Stored ps ∧
        uploads w' = uploads w ∧ DATA_DIR ∈ dirs w'.
Proof.
  intros Hno.
  destruct (writeProperties_inv E ps w)
    as (b & w' & Hw & Hf & Hu & _ & _ & _ & _ & Hd & Hok & _).
  rewrite (Hok Hno) in *. exists w'. split; [done|].
  split; [by destruct Hf as [?|(? & _)]|]. split; [done|]. by apply Hd.
Qed.

(** X1. [writeProperties] never raises and answers a boolean, [true] on a
    disk without faults.  When it answers [true], the durable file holds the
    list and a following [readProperties] returns exactly that list and
    changes nothing.  When it answers [false], one "Error writing
    properties:" entry is appended to the console, and the durable file is
    either as it was or truncated by the failed write; in the latter case a
    following [readProperties] returns the empty list, whatever the file
    held before. *)
Theorem write_then_read E (properties : list Property) w :
  ∃ saved w',
    writeProperties E properties w = (Ok saved, w') ∧
    ((∀ k, fault_at E k = None) → saved = true) ∧
    (saved = true →
       file w' = Stored properties ∧ readProperties E w' = (Ok properties, w')) ∧
    (saved = false →
       (∃ detail,
          console w' = (console w ++ [LogError "Error writing properties:" detail])%list) ∧
       (file w' = file w
        ∨ ∃ remains, file w' = Unreadable (json_error E remains) ∧
                     (readProperties E w').1 = Ok [])).
Proof.
  destruct (writeProperties_inv E properties w)
    as (b & w' & Hw & _ & _ & _ & _ & _ & _ & _ & Hok & _).
  destruct (writeProperties_cases E properties w)
    as (w1 & [(Hw1 & Hf & Hd & _)|(Hw1 & Hf & Hlog)]);
    rewrite Hw in Hw1; injection Hw1 as -> <-.
  - exists true, w'. split; [done|]. split; [done|]. split; [|discriminate].
    intros _. split; [done|]. by apply readProperties_stored.
  - exists false, w'. split; [done|]. split; [exact Hok|]. split; [discriminate|].
    intros _. split; [done|]. destruct Hf as [Hf|(remains & Hf)]; [by left|right].
    exists remains. split; [done|]. by eapply readProperties_unreadable.
Qed.

(** ** Create *)

Lemma new_record_lookup E (propertyData : Property) w key :
  key ≠ "createdAt" → key ≠ "updatedAt" →
  new_record E propertyData w !! key
  = match propertyData !! key with
    | Some v => Some v
    | None =>
        if decide (key = "id")
        then Some (VStr (property_id (time_at E (ticks w)) (suffix_at E (rolls w))))
        else None
    end.
Proof.
  intros Hc Hu. unfold new_record. rewrite !lookup_insert_ne by done.
  rewrite lookup_union. destruct (propertyData !! key) as [v|]; simpl.
  - by destruct ({[_ := _]} !! key).
  - case_decide as Hid.
    + subst key. by rewrite lookup_singleton_eq.
    + by rewrite lookup_singleton_ne.
Qed.

Lemma saveProperty_cases E (propertyData : Property) w :
  ∃ w',
    (saveProperty E propertyData w = (Ok (new_record E propertyData w), w') ∧
     file w' = Stored (loaded E w ++ [new_record E propertyData w]) ∧
     DATA_DIR ∈ dirs w')
    ∨ (saveProperty E propertyData w = (Throw "Failed to save property", w') ∧
       (file w' = file w ∨ ∃ remains, file w' = Unreadable (json_error E remains))).
Proof.
  rewrite saveProperty_run.
  destruct (after_load_inv E w) as (Hfile & _).
  destruct (writeProperties_cases E (loaded E w ++ [new_record E propertyData w])
              (tick (tick (roll (tick (after_load E w))))))
    as (w' & [(-> & Hf & Hd & _)|(-> & Hf & _)]); exists w'; [left|right]; split; try done.
  destruct Hf as [Hf|Hf]; [left|by right]. by rewrite Hf.
Qed.

(** X2. The record [saveProperty] builds.  Every key of the submitted data
    other than [createdAt] and [updatedAt] keeps the submitted value (a
    submitted [id] therefore overrides the generated one); [id] is otherwise
    the generated ["PROP_<time>_<suffix>"]; [createdAt] and [updatedAt] are
    always the second and third clock readings of the call.  The call either
    returns this record, with the durable file holding the loaded records
    followed by it, or raises "Failed to save property", the file being as it
    was or truncated by the failed write; on a disk without faults it always
    returns. *)
Theorem saveProperty_outcome E (propertyData : Property) w :
  let created := new_record E propertyData w in
  (∀ key, key ≠ "createdAt" → key ≠ "updatedAt" →
     created !! key
     = match propertyData !! key with
       | Some v => Some v
       | None =>
           if decide (key = "id")
           then Some (VStr (property_id (time_at E (ticks w)) (suffix_at E (rolls w))))
           else None
       end) ∧
  created !! "createdAt" = Some (VStr (toISOString (time_at E (S (ticks w))))) ∧
  created !! "updatedAt" = Some (VStr (toISOString (time_at E (S (S (ticks w)))))) ∧
  (∃ w',
     (saveProperty E propertyData w = (Ok created, w') ∧
      file w' = Stored (loaded E w ++ [created]))
     ∨ (saveProperty E propertyData w = (Throw "Failed to save property", w') ∧
        (file w' = file w ∨ ∃ remains, file w' = Unreadable (json_error E remains)))) ∧
  ((∀ k, fault_at E k = None) →
     ∃ w', saveProperty E propertyData w = (Ok created, w') ∧
           file w' = Stored (loaded E w ++ [created])).
Proof.
  intros created. split; [intros key; apply new_record_lookup|].
  split; [unfold created, new_record; by rewrite lookup_insert_ne, lookup_insert_eq|].
  split; [unfold created, new_record; by rewrite lookup_insert_eq|].
  split.
  - destruct (saveProperty_cases E propertyData w) as (w' & [(? & ? & _)|?]);
      exists w'; [left|right]; done.
  - intros Hno. rewrite saveProperty_run. fold created.
    destruct (writeProperties_healthy E (loaded E w ++ [created])
                (tick (tick (roll (tick (after_load E w))))) Hno)
      as (w' & -> & Hf & _). by exists w'.
Qed.

Lemma find_app_fresh (id : string) (ps : list Property) (r : Property) :
  (∀ p, p ∈ ps → has_id id p = false) → has_id id r = true →
  List.find (has_id id) (ps ++ [r]) = Some r.
Proof.
  intros Hfresh Hr. induction ps as [|p ps IH]; simpl.
  - by rewrite Hr.
  - rewrite (Hfresh p) by apply list_elem_of_here.
    apply IH. intros q Hq. apply Hfresh. by apply list_elem_of_further.
Qed.

(** X3. Create, then read.  After a [saveProperty] that returned a record
    whose identifier no loaded record carried, [getPropertyById] on that
    identifier returns the record itself, and [getAllProperties] returns the
    previous records followed by it; neither read changes the world. *)
Theorem create_then_read E (propertyData : Property) w created w' id :
  saveProperty E propertyData w = (Ok created, w') →
  created !! "id" = Some (VStr id) →
  (∀ p, p ∈ loaded E w → has_id id p = false) →
  getPropertyById E id w' = (Ok (Some created), w') ∧
  getAllProperties E w' = (Ok (loaded E w ++ [created])%list, w').
Proof.
  intros Hsave Hid Hfresh.
  destruct (saveProperty_cases E propertyData w) as (w1 & [(Hrun & Hf & Hd)|(Hrun & _)]);
    rewrite Hrun in Hsave; [|discriminate].
  injection Hsave as <- <-.
  pose proof (readProperties_stored E w1 _ Hf Hd) as Hread.
  split; [|exact Hread].
  unfold getPropertyById, bind. rewrite Hread. unfold ret.
  rewrite find_app_fresh; [done|done|].
  unfold has_id. rewrite Hid. by rewrite String.eqb_refl.
Qed.

(** X4. When the durable file exists but cannot be parsed, [readProperties]
    falls back to the empty list, so on a disk without faults [saveProperty]
    overwrites the file with the new record alone: the unreadable content
    is replaced, not kept. *)
Theorem saveProperty_replaces_unreadable_file E (propertyData : Property) w reason :
  file w = Unreadable reason →
  (∀ k, fault_at E k = None) →
  ∃ w', saveProperty E propertyData w = (Ok (new_record E propertyData w), w') ∧
        file w' = Stored [new_record E propertyData w].
Proof.
  intros Hbad Hno.
  assert (Hl : loaded E w = []).
  { destruct (after_load_inv E w) as (_ & _ & _ & [H|H]); [done|]. congruence. }
  rewrite saveProperty_run, Hl.
  destruct (writeProperties_healthy E ([] ++ [new_record E propertyData w])
              (tick (tick (roll (tick (after_load E w))))) Hno)
    as (w' & -> & Hf & _). by exists w'.
Qed.

(** ** Reads *)

Lemma searchProperties_world E (f : Filters) w :
  (searchProperties E f w).2 = after_load E w.
Proof.
  unfold searchProperties. unfold bind at 1. rewrite readProperties_loaded.
  unfold bind, lift, ret.
  destruct (truthy_string (propertyType f)); [destruct (filter_throwing _ _)|]; simpl;
    try done; destruct (truthy_string (location f)); try done;
    destruct (filter_throwing _ _); done.
Qed.

(** X5. The three read operations [getAllProperties], [getPropertyById]
    and [searchProperties] never change the durable file nor the written
    image files, whatever they return or raise. *)
Theorem reads_leave_the_store E id (f : Filters) w :
  (file (getAllProperties E w).2 = file w ∧ uploads (getAllProperties E w).2 = uploads w) ∧
  (file (getPropertyById E id w).2 = file w ∧ uploads (getPropertyById E id w).2 = uploads w) ∧
  (file (searchProperties E f w).2 = file w ∧ uploads (searchProperties E f w).2 = uploads w).
Proof.
  destruct (readProperties_inv E w) as (ps & w' & Hr & Hf & Hu & _).
  assert (Hal : after_load E w = w') by (unfold after_load; by rewrite Hr).
  split; [|split].
  - unfold getAllProperties. by rewrite Hr.
  - unfold getPropertyById, bind, ret. by rewrite Hr.
  - by rewrite searchProperties_world, Hal.
Qed.

(** ** Update, then read *)

Lemma find_insert_first (id : string) (ps : list Property) index (existing merged : Property) :
  list_find (λ prop, has_id id prop = true) ps = Some (index, existing) →
  has_id id merged = true →
  List.find (has_id id) (<[index := merged]> ps) = Some merged.
Proof.
  revert index. induction ps as [|p ps IH]; intros index Hfind Hm; [done|].
  apply list_find_Some in Hfind as (Hidx & Hex & Hbefore).
  destruct index as [|index]; simpl.
  - by rewrite Hm.
  - assert (Hp : has_id id p = false).
    { specialize (Hbefore 0%nat p eq_refl ltac:(lia)). by destruct (has_id id p). }
    rewrite Hp. apply IH; [|done].
    apply list_find_Some. split; [done|]. split; [done|].
    intros j y Hj Hlt. apply (Hbefore (S j) y); [done|lia].
Qed.

(** X6. Update, then read.  After an [updateProperty] that returned a
    merged record, the durable file holds the loaded list with the merged
    record at the position of the first record carrying the identifier: the
    length and every other position are unchanged.  [getAllProperties] then
    returns that list, and, when the update data carry no [id] key,
    [getPropertyById] on the identifier returns the merged record. *)
Theorem update_then_read E id (updateData : Property) w merged w' :
  updateProperty E id updateData w = (Ok (Some merged), w') →
  ∃ index existing,
    list_find (λ prop, has_id id prop = true) (loaded E w) = Some (index, existing) ∧
    collection w' = <[index := merged]> (loaded E w) ∧
    length (collection w') = length (loaded E w) ∧
    (∀ j, j ≠ index → collection w' !! j = loaded E w !! j) ∧
    getAllProperties E w' = (Ok (<[index := merged]> (loaded E w)), w') ∧
    (updateData !! "id" = None → getPropertyById E id w' = (Ok (Some merged), w')).
Proof.
  rewrite updateProperty_run.
  destruct (list_find _ (loaded E w)) as [[index existing]|] eqn:Hfind; [|discriminate].
  cbv zeta. fold (merged_record E updateData existing w).
  set (m := merged_record E updateData existing w).
  destruct (writeProperties_cases E (<[index := m]> (loaded E w)) (tick (after_load E w)))
    as (w1 & [(-> & Hf & Hd & _)|(-> & _)]); [|discriminate].
  pose proof Hfind as Hfound. apply list_find_Some in Hfound as (Hidx & Hex & _).
  rewrite list_lookup_insert_eq by (by eapply lookup_lt_Some).
  intros [= <- <-]. exists index, existing. split; [done|].
  assert (Hc : collection w1 = <[index := m]> (loaded E w)).
  { unfold collection. by rewrite Hf. }
  pose proof (readProperties_stored E w1 _ Hf Hd) as Hread.
  split; [done|]. split; [by rewrite Hc, length_insert|].
  split; [intros j Hj; by rewrite Hc, list_lookup_insert_ne|].
  split; [exact Hread|].
  intros Hid. unfold getPropertyById, bind, ret. rewrite Hread.
  rewrite (find_insert_first id _ index existing m Hfind); [done|].
  unfold has_id in *. unfold m. rewrite merged_record_keeps by done. exact Hex.
Qed.

(** ** Delete, then read *)

Lemma find_filter_other (i j : string) (ps : list Property) :
  j ≠ i →
  List.find (has_id j) (List.filter (λ prop, negb (has_id i prop)) ps)
  = List.find (has_id j) ps.
Proof.
  intros Hne. induction ps as [|p ps IH]; simpl; [done|].
  destruct (has_id j p) eqn:Hj.
  - assert (Hi : has_id i p = false).
    { unfold has_id in *. destruct (p !! "id") as [[]|]; try done.
      apply String.eqb_eq in Hj as ->. by apply String.eqb_neq. }
    rewrite Hi. simpl. by rewrite Hj.
  - destruct (has_id i p); simpl; [done|]. by rewrite Hj.
Qed.

(** X7. A successful [deleteProperty] on identifier [i] leaves every other
    identifier [j] readable as before: [getPropertyById j] returns after the
    delete what it returned before it. *)
Theorem delete_keeps_the_others E i j w w' :
  deleteProperty E i w = (Ok true, w') →
  j ≠ i →
  getPropertyById E j w' = (Ok (List.find (has_id j) (loaded E w)), w') ∧
  (getPropertyById E j w).1 = Ok (List.find (has_id j) (loaded E w)).
Proof.
  intros Hdel Hne.
  assert (Hbefore : (getPropertyById E j w).1 = Ok (List.find (has_id j) (loaded E w))).
  { unfold getPropertyById, bind, ret. by rewrite readProperties_loaded. }
  split; [|done].
  unfold deleteProperty, bind at 1 in Hdel. rewrite readProperties_loaded in Hdel.
  set (kept := List.filter (λ prop, negb (has_id i prop)) (loaded E w)) in *.
  destruct (length kept =? length (loaded E w))%nat; [discriminate|].
  destruct (writeProperties_cases E kept (after_load E w))
    as (w1 & [(Hw & Hf & Hd & _)|(Hw & _)]); rewrite Hw in Hdel; [|discriminate].
  injection Hdel as <-.
  unfold getPropertyById, bind, ret. rewrite (readProperties_stored E w1 _ Hf Hd).
  unfold kept. by rewrite find_filter_other.
Qed.

(** ** The search evaluator on arbitrary collections *)

Lemma filter_throwing_Ok (cb : Property → Outcome bool) (l kept : list Property) :
  filter_throwing cb l = Ok kept →
  kept = List.filter (λ x, match cb x with Ok b => b | Throw _ => false end) l.
Proof.
  revert kept. induction l as [|a l IH]; simpl; intros kept Hk.
  - by injection Hk.
  - destruct (cb a) as [b|e]; [|discriminate].
    destruct (filter_throwing cb l) as [rest|e]; [|discriminate].
    injection Hk as <-. rewrite (IH rest eq_refl). by destruct b.
Qed.

Lemma filter_sublist {A} (g : A → bool) (l : list A) : sublist (List.filter g l) l.
Proof.
  induction l as [|a l IH]; simpl; [constructor|].
  destruct (g a); by constructor.
Qed.

Lemma text_stage_Ok key criterion (l kept : list Property) w w' :
  match truthy_string criterion with
  | Some query => lift (filter_throwing (field_includes key query) l)
  | None => ret l
  end w = (Ok kept, w') →
  kept = List.filter (js_text criterion key) l ∧ w' = w.
Proof.
  unfold js_text. destruct (truthy_string criterion) as [query|]; unfold lift, ret.
  - intros [= Hk <-]. split; [|done]. by apply filter_throwing_Ok.
  - intros [= <- <-]. by rewrite filter_true.
Qed.

Lemma number_stage_ge key criterion (l : list Property) :
  match truthy_number criterion with
  | Some bound => List.filter (λ prop, js_ge (prop !! key) bound) l
  | None => l
  end = List.filter (js_at_least criterion key) l.
Proof.
  unfold js_at_least. destruct (truthy_number criterion); [done|]. by rewrite filter_true.
Qed.

Lemma number_stage_le key criterion (l : list Property) :
  match truthy_number criterion with
  | Some bound => List.filter (λ prop, js_le (prop !! key) bound) l
  | None => l
  end = List.filter (js_at_most criterion key) l.
Proof.
  unfold js_at_most. destruct (truthy_number criterion); [done|]. by rewrite filter_true.
Qed.

Lemma bind_Ok {A B} (m : M A) (k : A → M B) w b w' :
  bind m k w = (Ok b, w') → ∃ a w1, m w = (Ok a, w1) ∧ k a w1 = (Ok b, w').
Proof.
  unfold bind. destruct (m w) as [[a|e] w1]; [eauto|discriminate].
Qed.

(** X8. For a collection and filters that this development reads as
    JavaScript does (ASCII text; [price], [beds] and [baths] that are not
    arrays nor strings other than decimal integers of magnitude at most
    2^53): whenever [searchProperties] returns, its result is the loaded list
    filtered by the conjunction of the six criteria under JavaScript's
    truthiness and numeric coercions ([js_matches]); the result is a sublist
    of the loaded list, so order is preserved and no record is invented or
    duplicated; and the world is the one [readProperties] leaves. *)
Theorem searchProperties_result E (f : Filters) w result w' :
  Forall plainly_read (loaded E w) →
  plain_queries f →
  searchProperties E f w = (Ok result, w') →
  result = List.filter (js_matches f) (loaded E w) ∧
  sublist result (loaded E w) ∧
  w' = after_load E w.
Proof.
  intros _ _ Hrun.
  assert (Hres : result = List.filter (js_matches f) (loaded E w) ∧ w' = after_load E w).
  { unfold searchProperties in Hrun.
    apply bind_Ok in Hrun as (l0 & w0 & H0 & Hrun).
    rewrite readProperties_loaded in H0. injection H0 as <- <-.
    apply bind_Ok in Hrun as (l1 & w1 & H1 & Hrun).
    apply text_stage_Ok in H1 as [-> ->].
    apply bind_Ok in Hrun as (l2 & w2 & H2 & Hrun).
    apply text_stage_Ok in H2 as [-> ->].
    rewrite (number_stage_ge "price" (minPrice f)) in Hrun.
    rewrite (number_stage_le "price" (maxPrice f)) in Hrun.
    rewrite (number_stage_ge "beds" (beds f)) in Hrun.
    rewrite (number_stage_ge "baths" (baths f)) in Hrun.
    rewrite !filter_filter in Hrun. unfold ret in Hrun. injection Hrun as <- <-.
    split; [|done]. apply List.filter_ext. intros prop. unfold js_matches.
    by rewrite !andb_assoc. }
  destruct Hres as [-> ->]. split; [done|]. split; [apply filter_sublist|done].
Qed.

(** X9. On an empty collection (no file yet, an unreadable file, or a
    stored empty list) [searchProperties] returns the empty list for every
    filters object: no criterion can raise. *)
Theorem searchProperties_empty_store E (f : Filters) w :
  loaded E w = [] →
  searchProperties E f w = (Ok [], after_load E w).
Proof.
  intros Hl. unfold searchProperties. unfold bind at 1.
  rewrite readProperties_loaded, Hl.
  unfold bind, lift, ret.
  destruct (truthy_string (propertyType f)); simpl;
    destruct (truthy_string (location f)); simpl;
    destruct (truthy_number (minPrice f)), (truthy_number (maxPrice f)),
      (truthy_number (beds f)), (truthy_number (baths f)); done.
Qed.

Lemma filter_throwing_raises (cb : Property → Outcome bool) (l : list Property) bad :
  bad ∈ l → (∀ b, cb bad ≠ Ok b) → ∃ e, filter_throwing cb l = Throw e.
Proof.
  intros Hin Hbad. induction l as [|a l IH]; [by apply elem_of_nil in Hin|].
  simpl. destruct (cb a) as [b|e] eqn:Ha; [|eauto].
  apply elem_of_cons in Hin as [->|Hin]; [by destruct (Hbad b)|].
  destruct (IH Hin) as [e ->]. eauto.
Qed.

(** X10. With a non-empty [propertyType] filter, one loaded record whose
    [propertyType] is not a string makes [searchProperties] raise, whatever
    the other records and criteria are: the call yields no result at all. *)
Theorem searchProperties_raises_on_missing_category E (f : Filters) w query bad :
  propertyType f = Some query → query ≠ "" →
  bad ∈ loaded E w →
  (∀ s, bad !! "propertyType" ≠ Some (VStr s)) →
  ∃ message, searchProperties E f w = (Throw message, after_load E w).
Proof.
  intros Hq Hne Hin Hbad.
  unfold searchProperties. unfold bind at 1. rewrite readProperties_loaded.
  rewrite Hq. destruct query as [|c query]; [done|]. simpl truthy_string. cbv iota.
  destruct (filter_throwing_raises (field_includes "propertyType" (String c query))
              (loaded E w) bad Hin) as [e He].
  { intros b. unfold field_includes.
    destruct (bad !! "propertyType") as [[]|] eqn:Hb; try done. by destruct (Hbad s). }
  exists e. unfold bind, lift. by rewrite He.
Qed.

(** ** The messages of a failed validation *)

Lemma truthy_number_Some o n : truthy_number o = Some n ↔ o = Some n ∧ n ≠ 0.
Proof. destruct o as [[| |]|]; simpl; split; intros; destruct_and?; simplify_eq; done. Qed.

Lemma validateImageData_messages_checks (img : ImageData.t) :
  let errors := Validation.errors (validateImageData img) in
  (In "Image name is required" errors ↔ truthy_string (ImageData.name img) = None) ∧
  (In "Image type is required" errors ↔ truthy_string (ImageData.type img) = None) ∧
  (In "Invalid image type. Only JPEG, PNG, and WebP are allowed" errors ↔
     ∃ t, truthy_string (ImageData.type img) = Some t ∧ string_in t ALLOWED_TYPES = false) ∧
  (In "Image data is required" errors ↔ truthy_string (ImageData.data img) = None) ∧
  (In "Invalid base64 image data format" errors ↔
     ∃ d, truthy_string (ImageData.data img) = Some d ∧ base64Regex_test d = false) ∧
  (In "Image size cannot exceed 10MB" errors ↔
     ∃ n, truthy_number (ImageData.size img) = Some n ∧ (MAX_IMAGE_SIZE <? n) = true).
Proof.
  unfold validateImageData, push_if.
  repeat case_match;
    cbn [negb app length Nat.eqb Validation.isValid Validation.errors In] in *;
    rewrite ?negb_true_iff, ?negb_false_iff in *.
  all: repeat split; try (intros [H|H]; revert H); intros; destruct_or?; destruct_and?;
    try discriminate; try done; eauto.
  all: try (destruct_and?; simplify_eq; congruence).
  all: try (match goal with H : ∃ _, _ |- _ => destruct H as (? & ? & ?) end;
            simplify_eq; congruence).
Qed.

(** X11. The messages of [validateImageData], one by one: each of the six
    messages is in the error list exactly when its rule is broken.  A type
    that is absent or empty gives "Image type is required" and not the
    message about allowed types; likewise for the data and its format. *)
Theorem validateImageData_messages (img : ImageData.t) :
  let errors := Validation.errors (validateImageData img) in
  ("Image name is required" ∈ errors ↔ ¬ name_present img) ∧
  ("Image type is required" ∈ errors ↔
     ImageData.type img = None ∨ ImageData.type img = Some "") ∧
  ("Invalid image type. Only JPEG, PNG, and WebP are allowed" ∈ errors ↔
     ∃ t, ImageData.type img = Some t ∧ t ≠ "" ∧ ¬ In t ALLOWED_TYPES) ∧
  ("Image data is required" ∈ errors ↔
     ImageData.data img = None ∨ ImageData.data img = Some "") ∧
  ("Invalid base64 image data format" ∈ errors ↔
     ∃ d, ImageData.data img = Some d ∧ d ≠ "" ∧
          ¬ ∃ kind payload,
              (kind = "jpeg" ∨ kind = "jpg" ∨ kind = "png" ∨ kind = "webp") ∧
              d = "data:image/" +:+ kind +:+ ";base64," +:+ payload) ∧
  ("Image size cannot exceed 10MB" ∈ errors ↔
     ∃ n, ImageData.size img = Some n ∧ 10 * 1024 * 1024 < n).
Proof.
  intros errors.
  destruct (validateImageData_messages_checks img) as (H1 & H2 & H3 & H4 & H5 & H6).
  fold errors in H1, H2, H3, H4, H5, H6.
  rewrite !list_elem_of_In, H1, H2, H3, H4, H5, H6. clear.
  split; [|split; [|split; [|split; [|split]]]].
  - rewrite <- name_present_check. destruct (truthy_string _); split; try done.
    + intros H. by destruct H.
    + intros _ H. by apply H.
  - apply truthy_string_None.
  - setoid_rewrite truthy_string_Some.
    split; intros (t & Ht & Hin); exists t.
    + destruct Ht as [Ht Hne]. split; [done|]. split; [done|].
      rewrite <- string_in_spec. by rewrite Hin.
    + destruct Hin as [Hne Hin]. split; [done|].
      rewrite <- string_in_spec in Hin. by destruct (string_in t ALLOWED_TYPES).
  - apply truthy_string_None.
  - setoid_rewrite truthy_string_Some.
    split; intros (d & Hd & Hre); exists d.
    + destruct Hd as [Hd Hne]. split; [done|]. split; [done|].
      rewrite <- base64Regex_test_spec. by rewrite Hre.
    + destruct Hre as [Hne Hre]. split; [done|].
      rewrite <- base64Regex_test_spec in Hre. by destruct (base64Regex_test d).
  - setoid_rewrite truthy_number_Some. unfold MAX_IMAGE_SIZE.
    split; intros (n & Hn & Hgt); exists n.
    + destruct Hn as [Hn _]. split; [done|]. by apply Z.ltb_lt in Hgt.
    + split; [split; [done|lia]|]. by apply Z.ltb_lt.
Qed.

(** ** The payload behind the data-URI prefix *)

(** X12. For each of the four headers the validation accepts, the
    replacement [processImage] performs before decoding removes exactly the
    header and leaves the payload, whatever the payload is. *)
Theorem strip_data_uri_payload (payload : string) :
  strip_data_uri ("data:image/jpeg;base64," +:+ payload) = payload ∧
  strip_data_uri ("data:image/jpg;base64," +:+ payload) = payload ∧
  strip_data_uri ("data:image/png;base64," +:+ payload) = payload ∧
  strip_data_uri ("data:image/webp;base64," +:+ payload) = payload.
Proof.
  repeat split; cbv -[Nat.ltb String.length];
    match goal with
    | |- context [(?a <? ?b)%nat] =>
        replace (a <? b)%nat with true by (symmetry; apply Nat.ltb_lt; simpl; lia)
    end; reflexivity.
Qed.

(** ** One image ingested *)

Lemma processImage_cases E (img : ImageData.t) (dir : string) w :
  ∃ r w',
    processImage E img dir w = (Ok r, w') ∧
    file w' = file w ∧
    (hexes w ≤ hexes w')%nat ∧
    match r with
    | Saved filename filepath size originalName =>
        Validation.isValid (validateImageData img) = true ∧
        filename = pretty (time_at E (ticks w)) +:+ "_" +:+ hex_at E (hexes w)
                   +:+ extension_of E (default "" (ImageData.name img))
                         (default "" (ImageData.type img)) ∧
        filepath = path_join E dir filename ∧
        size = Z.of_nat (String.length (payload_bytes E img)) ∧
        originalName = default "" (ImageData.name img) ∧
        uploads w' = <[filepath := payload_bytes E img]> (uploads w) ∧
        hexes w' = S (hexes w) ∧
        dir ∈ dirs w'
    | Rejected errors =>
        Validation.isValid (validateImageData img) = false ∧
        errors = Validation.errors (validateImageData img) ∧
        w' = w
    | Crashed error =>
        Validation.isValid (validateImageData img) = true ∧
        (∃ k, fault_at E k = Some error) ∧
        (uploads w' = uploads w
         ∨ ∃ filepath remains, uploads w' = <[filepath := remains]> (uploads w)) ∧
        (hexes w' ≤ S (hexes w))%nat
    end ∧
    (Validation.isValid (validateImageData img) = true →
     (∀ k, fault_at E k = None) → is_saved r = true).
Proof.
  unfold processImage, generateUniqueFilename, extension_of, payload_bytes. unfold_m.
  destruct (Validation.isValid (validateImageData img)) eqn:Hv; simpl.
  - case_bool_decide as Hdir; simpl.
    + destruct (fault_at E (fs_calls w)) eqn:Hw; simpl;
        [destruct (damage_at E (fs_calls w)); simpl|];
        eexists _, _; (split; [reflexivity|]); simpl.
      * repeat split; eauto. intros _ Hno. by rewrite Hno in Hw.
      * repeat split; eauto. intros _ Hno. by rewrite Hno in Hw.
      * repeat split; eauto.
    + destruct (fault_at E (fs_calls w)) eqn:Hm; simpl.
      * eexists _, _; (split; [reflexivity|]); simpl. repeat split; eauto.
        intros _ Hno. by rewrite Hno in Hm.
      * destruct (fault_at E (S (fs_calls w))) eqn:Hw; simpl;
          [destruct (damage_at E (S (fs_calls w))); simpl|];
          eexists _, _; (split; [reflexivity|]); simpl.
        -- repeat split; eauto. intros _ Hno. by rewrite Hno in Hw.
        -- repeat split; eauto. intros _ Hno. by rewrite Hno in Hw.
        -- repeat split; eauto. set_solver.
  - eexists _, _; (split; [reflexivity|]). repeat split; auto; discriminate.
Qed.

Lemma ingest_cases E (img : ImageData.t) (dir : string) w :
  file (ingest E img dir w).2 = file w ∧
  (hexes w ≤ hexes (ingest E img dir w).2 ≤ S (hexes w))%nat ∧
  (∀ path, is_Some (uploads w !! path) → is_Some (uploads (ingest E img dir w).2 !! path)) ∧
  match (ingest E img dir w).1 with
  | Saved filename filepath size originalName =>
      filename = pretty (time_at E (ticks w)) +:+ "_" +:+ hex_at E (hexes w)
                 +:+ extension_of E (default "" (ImageData.name img))
                       (default "" (ImageData.type img)) ∧
      uploads (ingest E img dir w).2 !! filepath = Some (payload_bytes E img) ∧
      hexes (ingest E img dir w).2 = S (hexes w)
  | _ => True
  end ∧
  (Validation.isValid (validateImageData img) = true →
   (∀ k, fault_at E k = None) → is_saved (ingest E img dir w).1 = true).
Proof.
  unfold ingest.
  destruct (processImage_cases E img dir w) as (r & w' & -> & Hf & Hh & Hr & Hok). simpl.
  split; [done|]. destruct r as [fn fp sz on|es|e].
  - destruct Hr as (_ & Hfn & _ & _ & _ & Hup & Hhex & _).
    split; [lia|]. split; [|split; [|done]].
    + intros path Hp. rewrite Hup. rewrite lookup_insert. by case_decide.
    + split; [done|]. split; [|done]. rewrite Hup. apply lookup_insert_eq.
  - destruct Hr as (_ & _ & ->). split; [lia|]. done.
  - destruct Hr as (_ & _ & Hup & Hle). split; [lia|]. split; [|done].
    destruct Hup as [->|(fp & remains & ->)]; [done|].
    intros path Hp. rewrite lookup_insert. by case_decide.
Qed.

(** ** Image files across a batch *)

(** The filenames of the saved items, in order. *)
Lemma processed_entries_filenames i results :
  Processed.filename <$> processed_entries i results
  = omap (λ r, match r with Saved filename _ _ _ => Some filename | _ => None end) results.
Proof.
  revert i. induction results as [|r results IH]; intros i; [done|].
  destruct r; simpl; by rewrite IH.
Qed.

Lemma append_inj_length (a a' b b' : string) :
  String.length a = String.length a' → a +:+ b = a' +:+ b' → a = a'.
Proof.
  revert a'. induction a as [|x a IH]; intros [|y a'] Hlen Heq; simpl in *; try done.
  injection Heq as -> Heq. f_equal. apply IH; [lia|done].
Qed.

Lemma filename_inj (t : Z) h e (t' : Z) h' e' :
  String.length h = String.length h' →
  pretty t +:+ "_" +:+ h +:+ e = pretty t' +:+ "_" +:+ h' +:+ e' →
  h = h'.
Proof.
  intros Hlen Heq.
  change (pretty t +:+ String "_" (h +:+ e) = pretty t' +:+ String "_" (h' +:+ e')) in Heq.
  apply split_at_first in Heq as [_ Heq]; try apply free_of_pretty_Z.
  by eapply append_inj_length.
Qed.

Lemma ingest_each_filenames E (images : list ImageData.t) (dir : string) : ∀ w,
  (∀ i j, (hexes w ≤ i < hexes w + length images)%nat →
          (hexes w ≤ j < hexes w + length images)%nat →
          String.length (hex_at E i) = String.length (hex_at E j) ∧
          (hex_at E i = hex_at E j → i = j)) →
  let names :=
    omap (λ r, match r with Saved filename _ _ _ => Some filename | _ => None end)
      (ingest_each E images dir w).1 in
  (hexes w ≤ hexes (ingest_each E images dir w).2 ≤ hexes w + length images)%nat ∧
  NoDup names ∧
  (∀ name, name ∈ names →
     ∃ k (t : Z) e, (hexes w ≤ k < hexes (ingest_each E images dir w).2)%nat ∧
              name = pretty t +:+ "_" +:+ hex_at E k +:+ e).
Proof.
  induction images as [|img images IH]; intros w Hhex; simpl.
  - split; [lia|]. split; [apply NoDup_nil_2|]. by intros name ?%elem_of_nil.
  - destruct (ingest_cases E img dir w) as (_ & Hrange & _ & Hr & _).
    destruct (ingest E img dir w) as [r w1]. simpl in Hrange, Hr.
    specialize (IH w1).
    destruct (ingest_each E images dir w1) as [rs w2]. simpl in IH |- *.
    destruct IH as (Hrange2 & Hnodup & Hnames).
    { intros i j Hi Hj. apply Hhex; simpl; lia. }
    assert (Htail : ∀ name,
      name ∈ omap (λ r, match r with Saved f _ _ _ => Some f | _ => None end) rs →
      ∃ k (t : Z) e, (hexes w ≤ k < hexes w2)%nat ∧ (hexes w1 ≤ k)%nat ∧
               name = pretty t +:+ "_" +:+ hex_at E k +:+ e).
    { intros name Hn. destruct (Hnames name Hn) as (k & t & e & Hk & ->).
      exists k, t, e. split; [lia|]. split; [lia|done]. }
    split; [lia|].
    destruct r as [fn fp sz on|es|e]; simpl.
    + destruct Hr as (Hfn & _ & Hh1). split.
      * apply NoDup_cons. split; [|done].
        intros Hin. destruct (Htail fn Hin) as (k & t & e & Hk & Hk1 & Heq).
        rewrite Hfn in Heq.
        destruct (Hhex (hexes w) k) as [Hlen Hinj]; [simpl; lia..|].
        apply filename_inj in Heq; [|done]. apply Hinj in Heq. lia.
      * intros name [->|Hn]%elem_of_cons.
        -- exists (hexes w), (time_at E (ticks w)),
             (extension_of E (default "" (ImageData.name img))
                (default "" (ImageData.type img))).
           split; [lia|done].
        -- destruct (Htail name Hn) as (k & t & e & Hk & _ & ->). eauto 10.
    + split; [done|]. intros name Hn.
      destruct (Htail name Hn) as (k & t & x & Hk & _ & ->). eauto 10.
    + split; [done|]. intros name Hn.
      destruct (Htail name Hn) as (k & t & x & Hk & _ & ->). eauto 10.
Qed.

(** X14. Within one batch the saved images get pairwise distinct file
    names, provided the random hexadecimal strings drawn during the batch
    have one length and are pairwise distinct; the clock may stand still. *)
Theorem processImages_distinct_filenames E (images : list ImageData.t) (dir : string)
    w batch w' :
  processImages E images dir w = (Ok batch, w') →
  (∀ i j, (hexes w ≤ i < hexes w + length images)%nat →
          (hexes w ≤ j < hexes w + length images)%nat →
          String.length (hex_at E i) = String.length (hex_at E j) ∧
          (hex_at E i = hex_at E j → i = j)) →
  NoDup (Processed.filename <$> Batch.processedImages batch).
Proof.
  intros Hrun Hhex.
  destruct (processImages_batch E images dir w) as (b & Hb & _ & Hp & _).
  rewrite Hb in Hrun. injection Hrun as <- <-.
  rewrite Hp, processed_entries_filenames.
  by apply (ingest_each_filenames E images dir w Hhex).
Qed.

Lemma ingest_each_keeps_files E (images : list ImageData.t) (dir : string) : ∀ w path,
  is_Some (uploads w !! path) → is_Some (uploads (ingest_each E images dir w).2 !! path).
Proof.
  induction images as [|img images IH]; intros w path Hp; simpl; [done|].
  destruct (ingest_cases E img dir w) as (_ & _ & Hkeep & _).
  destruct (ingest E img dir w) as [r w1]. simpl in Hkeep.
  specialize (IH w1 path (Hkeep path Hp)).
  by destruct (ingest_each E images dir w1) as [rs w2].
Qed.

Lemma ingest_each_saved_files E (images : list ImageData.t) (dir : string) : ∀ w k fn fp sz on,
  (ingest_each E images dir w).1 !! k = Some (Saved fn fp sz on) →
  is_Some (uploads (ingest_each E images dir w).2 !! fp).
Proof.
  induction images as [|img images IH]; intros w k fn fp sz on Hk; simpl in *; [done|].
  destruct (ingest_cases E img dir w) as (_ & _ & _ & Hr & _).
  destruct (ingest E img dir w) as [r w1]. simpl in Hr.
  pose proof (ingest_each_keeps_files E images dir w1 fp) as Hkeep.
  specialize (IH w1).
  destruct (ingest_each E images dir w1) as [rs w2]. simpl in *.
  destruct k as [|k]; simpl in Hk.
  - injection Hk as ->. destruct Hr as (_ & Hup & _). apply Hkeep. by rewrite Hup.
  - by eapply IH.
Qed.

(** X15. [processImages] leaves the durable file untouched, never removes
    an image file that was there before, and every image it reports as
    processed is on disk at the reported path afterwards. *)
Theorem processImages_keeps_files E (images : list ImageData.t) (dir : string) w batch w' :
  processImages E images dir w = (Ok batch, w') →
  file w' = file w ∧
  (∀ path, is_Some (uploads w !! path) → is_Some (uploads w' !! path)) ∧
  (∀ p, p ∈ Batch.processedImages batch → is_Some (uploads w' !! Processed.filepath p)).
Proof.
  intros Hrun.
  destruct (processImages_batch E images dir w) as (b & Hb & _ & _ & _ & _ & _ & Hproc & _).
  rewrite Hb in Hrun. injection Hrun as <- <-.
  split; [apply ingest_each_file|]. split; [apply ingest_each_keeps_files|].
  intros p Hp. by eapply ingest_each_saved_files, Hproc.
Qed.

(** X13. [processImage] never raises and never changes the durable file.
    A saved image has passed the validation; its file name is the clock
    reading, an underscore, the random hexadecimal string and the extension
    (of the original name, else of the type); the file is written at
    [path.join(uploadDir, filename)] with the decoded payload, its size is
    the length of these bytes, and the upload directory exists afterwards.
    A rejected image leaves the world untouched and carries the errors of
    the validation.  A crash comes from a fault of the disk; the image
    files are then as they were, or one file holds what the failed write
    left of it.  On a disk without faults a valid image is always saved. *)
Theorem processImage_outcome E (img : ImageData.t) (dir : string) w :
  ∃ r w',
    processImage E img dir w = (Ok r, w') ∧
    file w' = file w ∧
    (hexes w ≤ hexes w')%nat ∧
    match r with
    | Saved filename filepath size originalName =>
        Validation.isValid (validateImageData img) = true ∧
        filename = pretty (time_at E (ticks w)) +:+ "_" +:+ hex_at E (hexes w)
                   +:+ extension_of E (default "" (ImageData.name img))
                         (default "" (ImageData.type img)) ∧
        filepath = path_join E dir filename ∧
        size = Z.of_nat (String.length (payload_bytes E img)) ∧
        originalName = default "" (ImageData.name img) ∧
        uploads w' = <[filepath := payload_bytes E img]> (uploads w) ∧
        hexes w' = S (hexes w) ∧
        dir ∈ dirs w'
    | Rejected errors =>
        Validation.isValid (validateImageData img) = false ∧
        errors = Validation.errors (validateImageData img) ∧
        w' = w
    | Crashed error =>
        Validation.isValid (validateImageData img) = true ∧
        (∃ k, fault_at E k = Some error) ∧
        (uploads w' = uploads w
         ∨ ∃ filepath remains, uploads w' = <[filepath := remains]> (uploads w)) ∧
        (hexes w' ≤ S (hexes w))%nat
    end ∧
    (Validation.isValid (validateImageData img) = true →
     (∀ k, fault_at E k = None) → is_saved r = true).
Proof. exact (processImage_cases E img dir w). Qed.

(** ** Creation requests *)

Lemma ingest_dirs E img dir w : dirs w ⊆ dirs (ingest E img dir w).2.
Proof.
  unfold ingest, processImage, generateUniqueFilename. unfold_m.
  destruct (Validation.isValid (validateImageData img)); simpl; [|done].
  case_bool_decide; simpl.
  - destruct (fault_at E (fs_calls w)); simpl; [destruct (damage_at E (fs_calls w))|];
      simpl; done.
  - destruct (fault_at E (fs_calls w)); simpl; [done|].
    destruct (fault_at E (S (fs_calls w))); simpl;
      [destruct (damage_at E (S (fs_calls w)))|]; simpl; set_solver.
Qed.

Lemma ingest_each_dirs E images dir : ∀ w, dirs w ⊆ dirs (ingest_each E images dir w).2.
Proof.
  induction images as [|img images IH]; intros w; simpl; [done|].
  pose proof (ingest_dirs E img dir w) as Hd.
  destruct (ingest E img dir w) as [r w1]. specialize (IH w1).
  destruct (ingest_each E images dir w1) as [rs w2]. simpl in *. set_solver.
Qed.

Lemma loaded_in_dir E w : file_in_dir w → loaded E w = collection w.
Proof.
  intros Hin. destruct (file w) as [|stored|reason] eqn:Hf.
  - destruct (after_load_inv E w) as (_ & _ & _ & [Hl|Hl]); unfold collection;
      rewrite Hf; [done|congruence].
  - by apply loaded_present, (Hin stored).
  - destruct (after_load_inv E w) as (_ & _ & _ & [Hl|Hl]); unfold collection;
      rewrite Hf; [done|congruence].
Qed.

(** Where a failed item of a batch comes from. *)
Lemma ingest_each_failures E images dir : ∀ w r,
  r ∈ (ingest_each E images dir w).1 →
  match r with
  | Saved _ _ _ _ => True
  | Rejected _ => ∃ img, img ∈ images ∧ Validation.isValid (validateImageData img) = false
  | Crashed e => ∃ k, fault_at E k = Some e
  end.
Proof.
  induction images as [|img images IH]; intros w r Hr; simpl in Hr.
  - by apply elem_of_nil in Hr.
  - pose proof (processImage_cases E img dir w) as (r0 & w0 & Hrun & _ & _ & Hcase & _).
    assert (Hi : ingest E img dir w = (r0, w0)) by (unfold ingest; by rewrite Hrun).
    rewrite Hi in Hr. specialize (IH w0).
    destruct (ingest_each E images dir w0) as [rs w2]. simpl in *.
    apply elem_of_cons in Hr as [->|Hr].
    + destruct r0 as [? ? ? ?|es|e]; [done| |].
      * destruct Hcase as (Hv & _). exists img. split; [apply list_elem_of_here|done].
      * by destruct Hcase as (_ & Hk & _).
    + specialize (IH r Hr). destruct r as [? ? ? ?|es|e]; [done| |done].
      destruct IH as (x & Hx & Hv). exists x. split; [by apply list_elem_of_further|done].
Qed.

Lemma all_saved_valid E images dir w :
  (∀ r, r ∈ (ingest_each E images dir w).1 → is_saved r = true) →
  ∀ img, img ∈ images → Validation.isValid (validateImageData img) = true.
Proof.
  intros Hall img [i Hi]%list_elem_of_lookup.
  destruct (Validation.isValid (validateImageData img)) eqn:Hv; [done|].
  pose proof (ingest_each_invalid E images dir w i img Hi Hv) as Hr.
  specialize (Hall _ (proj2 (list_elem_of_lookup _ _) (ex_intro _ i Hr))). discriminate.
Qed.

Lemma some_unsaved (results : list ImageResult) :
  (∀ r, r ∈ results → is_saved r = true) ∨ ∃ r, r ∈ results ∧ is_saved r = false.
Proof.
  induction results as [|r results IH].
  - left. by intros r ?%elem_of_nil.
  - destruct (is_saved r) eqn:Hr.
    + destruct IH as [IH|(x & Hx & Hs)].
      * left. intros x [->|Hx]%elem_of_cons; auto.
      * right. exists x. split; [by apply list_elem_of_further|done].
    + right. exists r. split; [apply list_elem_of_here|done].
Qed.

Lemma new_record_images E (attrs : Property) (processed : list Processed.t) w :
  new_record E (<["images" := VArr (map image_metadata processed)]> attrs) w !! "images"
  = Some (VArr (map image_metadata processed)).
Proof.
  rewrite new_record_lookup by done. by rewrite lookup_insert_eq.
Qed.

Lemma processed_entries_all_saved i (results : list ImageResult) :
  (∀ r, r ∈ results → is_saved r = true) →
  Processed.index <$> processed_entries i results = seq i (length results).
Proof.
  revert i. induction results as [|r results IH]; intros i Hall; [done|].
  assert (Hr : is_saved r = true) by apply Hall, list_elem_of_here.
  destruct r; try discriminate. simpl. f_equal.
  apply IH. intros x Hx. by apply Hall, list_elem_of_further.
Qed.

(** The last step of [addProperty]: the record is saved and the 201
    response built, or the save raises. *)
Lemma addProperty_save E (data : Property) (processed : list Processed.t) w :
  ∃ o w',
    (let! savedProperty := saveProperty E data in
     do! console_emit (LogInfo "Property saved with ID") in
     ret (Created savedProperty processed)) w = (o, w') ∧
    uploads w' = uploads w ∧
    (o = Ok (Created (new_record E data w) processed) ∧
     file w' = Stored (loaded E w ++ [new_record E data w])
     ∨ o = Throw "Failed to save property" ∧
       (∃ k e, fault_at E k = Some e) ∧
       (file w' = file w ∨ ∃ remains, file w' = Unreadable (json_error E remains))).
Proof.
  unfold bind at 1. rewrite saveProperty_run.
  destruct (readProperties_inv E w) as (ps & w0 & Hr & Hf0 & Hu0 & _).
  assert (Ha : after_load E w = w0) by (unfold after_load; by rewrite Hr).
  destruct (writeProperties_inv E (loaded E w ++ [new_record E data w])
              (tick (tick (roll (tick (after_load E w))))))
    as (b & w1 & -> & Hf & Hu & _ & _ & _ & _ & _ & _ & _ & Hfault).
  rewrite Ha in Hf, Hu. simpl in Hf, Hu.
  destruct b.
  - eexists _, _. split; [reflexivity|]. simpl. split; [congruence|]. left.
    split; [done|]. by destruct Hf as [?|(? & _)].
  - eexists _, _. split; [reflexivity|]. split; [congruence|]. right.
    split; [done|]. split; [by apply Hfault|].
    destruct Hf as [Hf|(_ & Hf)]; [left; congruence|by right].
Qed.

Lemma addProperty_cases E (propertyData : PropertyData) w :
  file_in_dir w ∨ (∀ k, fault_at E k = None) →
  ∃ response w',
    addProperty E propertyData w = (Ok response, w') ∧
    match response with
    | Created saved processed =>
        (∀ img, img ∈ submitted_images propertyData →
                Validation.isValid (validateImageData img) = true) ∧
        Processed.index <$> processed = seq 0 (length (submitted_images propertyData)) ∧
        (∀ p, p ∈ processed → is_Some (uploads w' !! Processed.filepath p)) ∧
        saved !! "images" = Some (VArr (map image_metadata processed)) ∧
        (∀ key, key ≠ "images" → key ≠ "id" → key ≠ "createdAt" → key ≠ "updatedAt" →
                saved !! key = attributes propertyData !! key) ∧
        collection w' = (collection w ++ [saved])%list
    | BadRequest errors =>
        errors ≠ [] ∧ file w' = file w ∧
        ((∃ img, img ∈ submitted_images propertyData ∧
                 Validation.isValid (validateImageData img) = false)
         ∨ ∃ k e, fault_at E k = Some e)
    | ServerError message =>
        message = "Failed to process property submission: Failed to save property" ∧
        (∃ k e, fault_at E k = Some e) ∧
        (file w' = file w ∨ ∃ remains, file w' = Unreadable (json_error E remains))
    end.
Proof.
  intros Hworld.
  unfold addProperty, try_catch.
  unfold bind at 1. unfold console_emit at 1.
  set (w0 := log (LogInfo "Property submission received:") w).
  set (attrs := attributes propertyData).
  set (post := λ (response : Response) (w' : World),
    match response with
    | Created saved processed =>
        (∀ img, img ∈ submitted_images propertyData →
                Validation.isValid (validateImageData img) = true) ∧
        Processed.index <$> processed = seq 0 (length (submitted_images propertyData)) ∧
        (∀ p, p ∈ processed → is_Some (uploads w' !! Processed.filepath p)) ∧
        saved !! "images" = Some (VArr (map image_metadata processed)) ∧
        (∀ key, key ≠ "images" → key ≠ "id" → key ≠ "createdAt" → key ≠ "updatedAt" →
                saved !! key = attrs !! key) ∧
        collection w' = (collection w ++ [saved])%list
    | BadRequest errors =>
        errors ≠ [] ∧ file w' = file w ∧
        ((∃ img, img ∈ submitted_images propertyData ∧
                 Validation.isValid (validateImageData img) = false)
         ∨ ∃ k e, fault_at E k = Some e)
    | ServerError message =>
        message = "Failed to process property submission: Failed to save property" ∧
        (∃ k e, fault_at E k = Some e) ∧
        (file w' = file w ∨ ∃ remains, file w' = Unreadable (json_error E remains))
    end).
  assert (Hsave : ∀ processed w1,
    file w1 = file w → dirs w ⊆ dirs w1 →
    (∀ img, img ∈ submitted_images propertyData →
            Validation.isValid (validateImageData img) = true) →
    Processed.index <$> processed = seq 0 (length (submitted_images propertyData)) →
    (∀ p, p ∈ processed → is_Some (uploads w1 !! Processed.filepath p)) →
    ∃ response w',
      match (let! savedProperty :=
               saveProperty E (<["images" := VArr (map image_metadata processed)]> attrs) in
             do! console_emit (LogInfo "Property saved with ID") in
             ret (Created savedProperty processed)) w1 with
      | (Ok a, w'0) => (Ok a, w'0)
      | (Throw e, w'0) =>
          (do! console_emit (LogError "Error processing property:" e) in
           ret (ServerError ("Failed to process property submission: " +:+ e))) w'0
      end = (Ok response, w') ∧ post response w').
  { intros processed w1 Hw1 Hd1 Hvalid Hidx Hfiles.
    set (data := <["images" := VArr (map image_metadata processed)]> attrs).
    assert (Hl : loaded E w1 = collection w).
    { rewrite <- (collection_file w w1 Hw1). destruct Hworld as [Hin|Hno].
      - apply loaded_in_dir. intros stored Hst. rewrite Hw1 in Hst.
        apply Hd1. by eapply Hin.
      - by apply loaded_healthy. }
    destruct (addProperty_save E data processed w1)
      as (o & w2 & -> & Hu & [(-> & Hf)|(-> & Hfault & Hf)]).
    - eexists _, w2. split; [reflexivity|]. simpl.
      split; [done|]. split; [done|].
      split; [intros p Hp; rewrite Hu; by apply Hfiles|].
      split; [apply new_record_images|]. split.
      + intros key H1 H2 H3 H4. rewrite new_record_lookup by done.
        unfold data. rewrite lookup_insert_ne by done.
        destruct (attrs !! key); [done|]. by case_decide.
      + unfold collection at 1. by rewrite Hf, Hl.
    - eexists _, _. split; [reflexivity|]. simpl. split; [done|]. split; [done|].
      rewrite <- Hw1. exact Hf. }
  unfold submitted_images in *.
  destruct (images propertyData) as [[|first rest]|] eqn:Himgs; simpl in Hsave.
  - apply (Hsave [] w0); try done.
    + by intros img ?%elem_of_nil.
    + by intros p ?%elem_of_nil.
  - unfold bind at 1. unfold console_emit at 1.
    set (w1 := log (LogInfo "Processing images...") w0).
    unfold bind at 1.
    destruct (processImages_batch E (first :: rest) UPLOAD_DIR w1)
      as (batch & -> & Hlen & Hproc & Herr & Hsucc & _ & Hlook & _).
    set (w2 := (ingest_each E (first :: rest) UPLOAD_DIR w1).2).
    assert (Hw2 : file w2 = file w) by apply (ingest_each_file E (first :: rest) UPLOAD_DIR w1).
    assert (Hd2 : dirs w ⊆ dirs w2) by apply (ingest_each_dirs E (first :: rest) UPLOAD_DIR w1).
    destruct (some_unsaved (ingest_each E (first :: rest) UPLOAD_DIR w1).1)
      as [Hall|(r & Hr & Hbad)].
    + rewrite (proj2 Hsucc Hall). simpl.
      unfold bind at 1. unfold console_emit at 1.
      apply (Hsave (Batch.processedImages batch)
               (log (LogInfo "Successfully processed images") w2)); try done.
      * by apply (all_saved_valid E (first :: rest) UPLOAD_DIR w1).
      * rewrite Hproc, processed_entries_all_saved by done. by rewrite Hlen.
      * intros p Hp. simpl. by eapply ingest_each_saved_files, Hlook.
    + assert (Hfail : Batch.success batch = false).
      { apply not_true_is_false. intros Hs. rewrite (proj1 Hsucc Hs r Hr) in Hbad.
        discriminate. }
      rewrite Hfail. simpl. unfold bind, console_emit, ret. simpl.
      eexists _, _. split; [reflexivity|]. simpl. split; [|split; [exact Hw2|]].
      * intros Hnil. rewrite Herr in Hnil.
        pose proof (proj1 (error_entries_nil 0 (first :: rest) _
                             (ingest_each_length E _ UPLOAD_DIR w1)) Hnil r Hr) as Hs.
        rewrite Hs in Hbad. discriminate.
      * pose proof (ingest_each_failures E (first :: rest) UPLOAD_DIR w1 r Hr) as Hwhy.
        destruct r as [? ? ? ?|es|e]; [discriminate|by left|right].
        destruct Hwhy as [k Hk]. eauto.
  - apply (Hsave [] w0); try done.
    + by intros img ?%elem_of_nil.
    + by intros p ?%elem_of_nil.
Qed.

(** X16. In a world whose durable file lies in its directory,
    [addProperty] always answers, with one of three responses, and creates
    all or nothing.  It answers [Created] only when every submitted image
    passed the validation and was saved, in order, to a file that is then on
    disk; the stored record carries their metadata under [images] and the
    submitted attributes, and the collection is the previous one followed by
    it.  It answers [BadRequest] only when an image failed the validation or
    a fault of the disk occurred; the error list is then not empty and the
    durable file is unchanged.  It answers with a server error only after a
    fault of the disk; the message is then "Failed to process property
    submission: Failed to save property", and the durable file is as it was
    or truncated by the failed write. *)
Theorem addProperty_all_or_nothing E (propertyData : PropertyData) w :
  file_in_dir w →
  ∃ response w',
    addProperty E propertyData w = (Ok response, w') ∧
    match response with
    | Created saved processed =>
        (∀ img, img ∈ submitted_images propertyData →
                Validation.isValid (validateImageData img) = true) ∧
        Processed.index <$> processed = seq 0 (length (submitted_images propertyData)) ∧
        (∀ p, p ∈ processed → is_Some (uploads w' !! Processed.filepath p)) ∧
        saved !! "images" = Some (VArr (map image_metadata processed)) ∧
        (∀ key, key ≠ "images" → key ≠ "id" → key ≠ "createdAt" → key ≠ "updatedAt" →
                saved !! key = attributes propertyData !! key) ∧
        collection w' = (collection w ++ [saved])%list
    | BadRequest errors =>
        errors ≠ [] ∧ file w' = file w ∧
        ((∃ img, img ∈ submitted_images propertyData ∧
                 Validation.isValid (validateImageData img) = false)
         ∨ ∃ k e, fault_at E k = Some e)
    | ServerError message =>
        message = "Failed to process property submission: Failed to save property" ∧
        (∃ k e, fault_at E k = Some e) ∧
        (file w' = file w ∨ ∃ remains, file w' = Unreadable (json_error E remains))
    end.
Proof. intros Hin. apply addProperty_cases. by left. Qed.

(** X17. On a disk without faults, a request whose images all pass the
    validation is answered [Created]: every submitted image is processed, in
    order; the stored record carries their metadata under [images] and the
    submitted attributes under every key other than [images], [id],
    [createdAt] and [updatedAt]; the collection is the previous one followed
    by the record; and every processed image is on disk. *)
Theorem addProperty_creates E (propertyData : PropertyData) w :
  (∀ k, fault_at E k = None) →
  (∀ img, img ∈ submitted_images propertyData →
          Validation.isValid (validateImageData img) = true) →
  ∃ saved processed w',
    addProperty E propertyData w = (Ok (Created saved processed), w') ∧
    Processed.index <$> processed = seq 0 (length (submitted_images propertyData)) ∧
    saved !! "images" = Some (VArr (map image_metadata processed)) ∧
    (∀ key, key ≠ "images" → key ≠ "id" → key ≠ "createdAt" → key ≠ "updatedAt" →
            saved !! key = attributes propertyData !! key) ∧
    collection w' = (collection w ++ [saved])%list ∧
    (∀ p, p ∈ processed → is_Some (uploads w' !! Processed.filepath p)).
Proof.
  intros Hno Hvalid.
  destruct (addProperty_cases E propertyData w (or_intror Hno))
    as (response & w' & Hrun & Hpost).
  destruct response as [saved processed|errors|message].
  - destruct Hpost as (_ & Hidx & Hfiles & Himg & Hkeys & Hc). by exists saved, processed, w'.
  - destruct Hpost as (_ & _ & [(img & Hin & Hbad)|(k & e & Hk)]).
    + rewrite (Hvalid img Hin) in Hbad. discriminate.
    + rewrite Hno in Hk. discriminate.
  - destruct Hpost as (_ & (k & e & Hk) & _). rewrite Hno in Hk. discriminate.
Qed.

(** ** The handlers by id *)

Lemma find_list_find (id : string) (ps : list Property) :
  List.find (has_id id) ps = snd <$> list_find (λ prop, has_id id prop = true) ps.
Proof.
  induction ps as [|p ps IH]; [done|]. simpl.
  destruct (has_id id p) eqn:Hp.
  - rewrite decide_True by done. done.
  - rewrite decide_False by done. rewrite IH.
    by destruct (list_find _ ps) as [[]|].
Qed.

Lemma writeProperties_at E ps w :
  DATA_DIR ∈ dirs w →
  writeProperties E ps w =
  match fault_at E (fs_calls w) with
  | None => (Ok true, set_file (Stored ps) (fs_call w))
  | Some e =>
      (Ok false,
       log (LogError "Error writing properties:" e)
         match damage_at E (fs_calls w) with
         | Untouched => fs_call w
         | Torn remains => set_file (Unreadable (json_error E remains)) (fs_call w)
         end)
  end.
Proof.
  intros Hd. unfold_m. rewrite bool_decide_eq_true_2 by done. simpl.
  by destruct (fault_at E (fs_calls w)).
Qed.

Lemma getProperty_run E id w stored :
  file w = Stored stored → DATA_DIR ∈ dirs w →
  getProperty E id w
  = (Ok match List.find (has_id id) stored with
        | Some found => Found found
        | None => NotFound
        end, w).
Proof.
  intros Hf Hd. unfold getProperty, try_catch, getPropertyById. unfold bind at 1.
  unfold bind at 1. rewrite (readProperties_stored E w stored Hf Hd). unfold ret.
  by destruct (List.find _ _).
Qed.

Lemma getProperty_lost E id w reason :
  file w = Unreadable reason → (getProperty E id w).1 = Ok NotFound.
Proof.
  intros Hf. unfold getProperty, try_catch, getPropertyById. unfold bind at 1.
  unfold bind at 1.
  pose proof (readProperties_unreadable E w reason Hf) as Hr.
  destruct (readProperties E w) as [[ps|e] w1]; simpl in Hr; [|discriminate].
  injection Hr as ->. done.
Qed.

(** X18. When the durable file holds an array of records, [getProperty]
    answers with the first record of the array that carries the identifier,
    and "not found" when there is none; it never forwards an error and
    changes nothing. *)
Theorem getProperty_reply E id w stored :
  file w = Stored stored → DATA_DIR ∈ dirs w →
  getProperty E id w
  = (Ok match List.find (has_id id) stored with
        | Some found => Found found
        | None => NotFound
        end, w).
Proof. exact (getProperty_run E id w stored). Qed.

Lemma find_filter_length (id : string) (ps : list Property) :
  (length (List.filter (λ prop, negb (has_id id prop)) ps) =? length ps)%nat
  = match List.find (has_id id) ps with None => true | Some _ => false end.
Proof.
  destruct (List.find (has_id id) ps) as [hit|] eqn:Hfind.
  - apply Nat.eqb_neq. intros Hlen.
    apply List.find_some in Hfind as [Hin Hid].
    pose proof (filter_length_all _ _ Hlen hit (proj2 (list_elem_of_In _ _) Hin)) as Hk.
    simpl in Hk. rewrite Hid in Hk. discriminate.
  - apply Nat.eqb_eq. f_equal. apply filter_all_true. intros x Hx.
    by rewrite (List.find_none _ _ Hfind x Hx).
Qed.

Lemma deletePropertyById_run E id w stored :
  file w = Stored stored → DATA_DIR ∈ dirs w →
  deletePropertyById E id w =
  match List.find (has_id id) stored with
  | None => (Ok NotFound, w)
  | Some _ =>
      match fault_at E (fs_calls w) with
      | None =>
          (Ok Deleted,
           set_file (Stored (List.filter (λ prop, negb (has_id id prop)) stored)) (fs_call w))
      | Some e =>
          (Ok NotFound,
           log (LogError "Error writing properties:" e)
             match damage_at E (fs_calls w) with
             | Untouched => fs_call w
             | Torn remains => set_file (Unreadable (json_error E remains)) (fs_call w)
             end)
      end
  end.
Proof.
  intros Hf Hd.
  pose proof (readProperties_stored E w stored Hf Hd) as Hread.
  assert (Hl : loaded E w = stored) by (unfold loaded; by rewrite Hread).
  assert (Ha : after_load E w = w) by (unfold after_load; by rewrite Hread).
  unfold deletePropertyById, try_catch. unfold bind at 1. rewrite deleteProperty_run.
  cbv zeta. rewrite Hl, Ha, find_filter_length.
  destruct (List.find (has_id id) stored); [|done].
  rewrite (writeProperties_at E _ w Hd). by destruct (fault_at E (fs_calls w)).
Qed.

(** X19. When the durable file holds an array of records,
    [deletePropertyById] never forwards an error.  When no record carries
    the identifier it answers "not found" and changes nothing.  Otherwise it
    writes the array without the records of that identifier: when the write
    succeeds it answers "deleted", the file holds the shortened array and a
    following [getProperty] of the identifier answers "not found"; when the
    write fails it answers "not found" although the record exists, and the
    file is as it was or truncated, as the fault left it. *)
Theorem deletePropertyById_reply E id w stored :
  file w = Stored stored → DATA_DIR ∈ dirs w →
  let kept := List.filter (λ prop, negb (has_id id prop)) stored in
  match List.find (has_id id) stored with
  | None => deletePropertyById E id w = (Ok NotFound, w)
  | Some _ =>
      match fault_at E (fs_calls w) with
      | None =>
          ∃ w', deletePropertyById E id w = (Ok Deleted, w') ∧
                file w' = Stored kept ∧
                getProperty E id w' = (Ok NotFound, w')
      | Some _ =>
          ∃ w', deletePropertyById E id w = (Ok NotFound, w') ∧
                file w' = file_after_fault E (fs_calls w) stored
      end
  end.
Proof.
  intros Hf Hd kept. rewrite (deletePropertyById_run E id w stored Hf Hd).
  destruct (List.find (has_id id) stored); [|done].
  destruct (fault_at E (fs_calls w)).
  - eexists. split; [reflexivity|]. unfold file_after_fault.
    destruct (damage_at E (fs_calls w)); simpl; done.
  - eexists. split; [reflexivity|]. split; [done|].
    rewrite (getProperty_run E id _ kept); [|done..].
    unfold kept. by rewrite find_filter_not.
Qed.

Lemma updatePropertyById_run E id (updateData : Property) w stored :
  file w = Stored stored → DATA_DIR ∈ dirs w →
  updatePropertyById E id updateData w =
  match list_find (λ prop, has_id id prop = true) stored with
  | None => (Ok NotFound, w)
  | Some (index, existing) =>
      let merged := merged_record E updateData existing w in
      match fault_at E (fs_calls w) with
      | None =>
          (Ok (Updated merged), set_file (Stored (<[index := merged]> stored)) (fs_call (tick w)))
      | Some e =>
          (Ok (Failed "Failed to update property: Failed to update property"),
           log (LogError "Error writing properties:" e)
             match damage_at E (fs_calls w) with
             | Untouched => fs_call (tick w)
             | Torn remains =>
                 set_file (Unreadable (json_error E remains)) (fs_call (tick w))
             end)
      end
  end.
Proof.
  intros Hf Hd.
  pose proof (readProperties_stored E w stored Hf Hd) as Hread.
  assert (Hl : loaded E w = stored) by (unfold loaded; by rewrite Hread).
  assert (Ha : after_load E w = w) by (unfold after_load; by rewrite Hread).
  unfold updatePropertyById, try_catch. unfold bind at 1. rewrite updateProperty_run.
  rewrite Hl, Ha.
  destruct (list_find _ stored) as [[index existing]|] eqn:Hfind; [|done].
  cbv zeta. fold (merged_record E updateData existing w).
  rewrite (writeProperties_at E _ (tick w) Hd). simpl.
  destruct (fault_at E (fs_calls w)); [done|].
  apply list_find_Some in Hfind as (Hidx & _).
  rewrite list_lookup_insert_eq by (by eapply lookup_lt_Some). done.
Qed.

(** X20. When the durable file holds an array of records,
    [updatePropertyById] answers in one of three ways.  When no record
    carries the identifier it answers "not found" and changes nothing.
    Otherwise it merges the update into the first record with the identifier
    and writes the array with that record replaced: when the write succeeds
    it answers with the merged record and the file holds the new array; when
    the write fails it forwards the error "Failed to update property: Failed
    to update property", and the file is as it was or truncated, as the
    fault left it. *)
Theorem updatePropertyById_reply E id (updateData : Property) w stored :
  file w = Stored stored → DATA_DIR ∈ dirs w →
  match list_find (λ prop, has_id id prop = true) stored with
  | None => updatePropertyById E id updateData w = (Ok NotFound, w)
  | Some (index, existing) =>
      let merged := merged_record E updateData existing w in
      match fault_at E (fs_calls w) with
      | None =>
          ∃ w', updatePropertyById E id updateData w = (Ok (Updated merged), w') ∧
                file w' = Stored (<[index := merged]> stored)
      | Some _ =>
          ∃ w', updatePropertyById E id updateData w
                = (Ok (Failed "Failed to update property: Failed to update property"), w') ∧
                file w' = file_after_fault E (fs_calls w) stored
      end
  end.
Proof.
  intros Hf Hd. rewrite (updatePropertyById_run E id updateData w stored Hf Hd).
  destruct (list_find _ stored) as [[index existing]|]; [|done]. cbv zeta.
  destruct (fault_at E (fs_calls w)).
  - eexists. split; [reflexivity|]. unfold file_after_fault.
    destruct (damage_at E (fs_calls w)); simpl; done.
  - eexists. split; [reflexivity|]. done.
Qed.

(** X21. A write that fails after the durable file was opened loses the
    whole collection.  When the file holds an array with a record of the
    identifier and the write of [deletePropertyById] or [updatePropertyById]
    is torn, the handler answers "not found", respectively forwards its
    error, the file is left unparsable, and from then on [getAllProperties]
    returns the empty list and [getProperty] answers "not found" for every
    identifier, also for the records the request did not concern. *)
Theorem torn_write_loses_collection E id (updateData : Property) w stored reason remains :
  file w = Stored stored → DATA_DIR ∈ dirs w →
  (∃ prop, prop ∈ stored ∧ has_id id prop = true) →
  fault_at E (fs_calls w) = Some reason →
  damage_at E (fs_calls w) = Torn remains →
  (∃ w', deletePropertyById E id w = (Ok NotFound, w') ∧
         file w' = Unreadable (json_error E remains) ∧
         (getAllProperties E w').1 = Ok [] ∧
         ∀ other, (getProperty E other w').1 = Ok NotFound) ∧
  (∃ w', updatePropertyById E id updateData w
         = (Ok (Failed "Failed to update property: Failed to update property"), w') ∧
         file w' = Unreadable (json_error E remains) ∧
         (getAllProperties E w').1 = Ok [] ∧
         ∀ other, (getProperty E other w').1 = Ok NotFound).
Proof.
  intros Hf Hd (prop & Hin & Hid) Hfault Htorn.
  assert (Hfind : ∃ hit, List.find (has_id id) stored = Some hit).
  { destruct (List.find (has_id id) stored) as [hit|] eqn:Hfind; [eauto|].
    apply list_elem_of_In in Hin.
    rewrite (List.find_none _ _ Hfind prop Hin) in Hid. discriminate. }
  destruct Hfind as [hit Hfind].
  split.
  - rewrite (deletePropertyById_run E id w stored Hf Hd), Hfind, Hfault, Htorn.
    eexists. split; [reflexivity|]. simpl. split; [done|]. split.
    + unfold getAllProperties. by eapply readProperties_unreadable.
    + intros other. by eapply getProperty_lost.
  - rewrite (updatePropertyById_run E id updateData w stored Hf Hd).
    rewrite find_list_find in Hfind.
    destruct (list_find _ stored) as [[index existing]|]; [|discriminate].
    cbv zeta. rewrite Hfault, Htorn.
    eexists. split; [reflexivity|]. simpl. split; [done|]. split.
    + unfold getAllProperties. by eapply readProperties_unreadable.
    + intros other. by eapply getProperty_lost.
Qed.

(** ** Worked instances *)

(** The first create of a first run, read back. *)
Lemma create_then_read_witness :
  getPropertyById ticking_env first_id (after_first_create ticking_env)
  = (Ok (Some (new_record ticking_env flat fresh_world)), after_first_create ticking_env) ∧
  getAllProperties ticking_env (after_first_create ticking_env)
  = (Ok [new_record ticking_env flat fresh_world], after_first_create ticking_env).
Proof.
  apply (create_then_read ticking_env flat fresh_world
           (new_record ticking_env flat fresh_world) (after_first_create ticking_env) first_id).
  - vm_compute. reflexivity.
  - vm_compute. reflexivity.
  - intros p Hp. vm_compute in Hp. by apply elem_of_nil in Hp.
Defined.

(** A create over a file that does not parse. *)
Lemma saveProperty_replaces_unreadable_file_witness :
  ∃ w', saveProperty ticking_env flat corrupt_world
        = (Ok (new_record ticking_env flat corrupt_world), w') ∧
        file w' = Stored [new_record ticking_env flat corrupt_world].
Proof.
  apply (saveProperty_replaces_unreadable_file ticking_env flat corrupt_world
           "Unexpected end of JSON input").
  - reflexivity.
  - intros k. reflexivity.
Defined.

(** A new price for the first of two listed records. *)
Lemma update_then_read_witness :
  ∃ merged w',
    updateProperty ticking_env "PROP_1" new_price (world_with [listed_flat; listed_villa])
    = (Ok (Some merged), w') ∧
    collection w' = [merged; listed_villa] ∧
    getPropertyById ticking_env "PROP_1" w' = (Ok (Some merged), w').
Proof.
  set (w := world_with [listed_flat; listed_villa]).
  set (merged := merged_record ticking_env new_price listed_flat w).
  set (w' := (updateProperty ticking_env "PROP_1" new_price w).2).
  assert (Hrun : updateProperty ticking_env "PROP_1" new_price w = (Ok (Some merged), w'))
    by (vm_compute; reflexivity).
  destruct (update_then_read ticking_env "PROP_1" new_price w merged w' Hrun)
    as (index & existing & Hfind & Hc & _ & _ & _ & Hget).
  exists merged, w'. split; [exact Hrun|]. split.
  - assert (Hat : list_find (λ prop, has_id "PROP_1" prop = true) (loaded ticking_env w)
                  = Some (0%nat, listed_flat)) by (vm_compute; reflexivity).
    rewrite Hat in Hfind. injection Hfind as <- <-. rewrite Hc.
    vm_compute. reflexivity.
  - apply Hget. vm_compute. reflexivity.
Defined.

(** The first of two listed records is deleted; the second is still found. *)
Lemma delete_keeps_the_others_witness :
  ∃ w',
    deleteProperty ticking_env "PROP_1" (world_with [listed_flat; listed_villa])
    = (Ok true, w') ∧
    getPropertyById ticking_env "PROP_2" w' = (Ok (Some listed_villa), w').
Proof.
  set (w := world_with [listed_flat; listed_villa]).
  set (w' := (deleteProperty ticking_env "PROP_1" w).2).
  assert (Hrun : deleteProperty ticking_env "PROP_1" w = (Ok true, w'))
    by (vm_compute; reflexivity).
  destruct (delete_keeps_the_others ticking_env "PROP_1" "PROP_2" w w' Hrun) as (Hget & _);
    [discriminate|].
  exists w'. split; [exact Hrun|]. rewrite Hget. f_equal.
Defined.

(** Flats between 1000 and 2000, among a flat and a villa. *)
Lemma searchProperties_result_witness :
  [flat] = List.filter (js_matches flats_between_1000_and_2000)
             (loaded ticking_env (world_with [flat; villa])) ∧
  sublist [flat] (loaded ticking_env (world_with [flat; villa])) ∧
  world_with [flat; villa] = after_load ticking_env (world_with [flat; villa]).
Proof.
  apply (searchProperties_result ticking_env flats_between_1000_and_2000
           (world_with [flat; villa]) [flat] (world_with [flat; villa])).
  - assert (Hl : loaded ticking_env (world_with [flat; villa]) = [flat; villa])
      by (vm_compute; reflexivity).
    rewrite Hl.
    apply Forall_cons; split; [|apply Forall_cons; split; [|apply Forall_nil]];
      vm_compute; repeat split.
  - split; intros query Hq; vm_compute in Hq; [|discriminate].
    injection Hq as <-. vm_compute. reflexivity.
  - vm_compute. reflexivity.
Defined.

(** A search on a first run. *)
Lemma searchProperties_empty_store_witness :
  searchProperties ticking_env flats_between_1000_and_2000 fresh_world
  = (Ok [], after_load ticking_env fresh_world).
Proof.
  apply (searchProperties_empty_store ticking_env flats_between_1000_and_2000 fresh_world).
  vm_compute. reflexivity.
Defined.

(** A search by category over a record without one. *)
Lemma searchProperties_raises_on_missing_category_witness :
  ∃ message,
    searchProperties ticking_env flats_between_1000_and_2000 (world_with [flat; untyped])
    = (Throw message, after_load ticking_env (world_with [flat; untyped])).
Proof.
  apply (searchProperties_raises_on_missing_category ticking_env
           flats_between_1000_and_2000 (world_with [flat; untyped]) "flat" untyped).
  - reflexivity.
  - discriminate.
  - assert (Hl : loaded ticking_env (world_with [flat; untyped]) = [flat; untyped])
      by (vm_compute; reflexivity).
    rewrite Hl. apply list_elem_of_further, list_elem_of_here.
  - intros s. vm_compute. discriminate.
Defined.

(** Two images in one batch. *)
Lemma processImages_distinct_filenames_witness :
  ∃ batch w',
    processImages ticking_env [good_image; good_image] UPLOAD_DIR fresh_world
    = (Ok batch, w') ∧
    NoDup (Processed.filename <$> Batch.processedImages batch).
Proof.
  destruct (processImages_batch ticking_env [good_image; good_image] UPLOAD_DIR fresh_world)
    as (batch & Hrun & _).
  eexists batch, _. split; [exact Hrun|].
  apply (processImages_distinct_filenames ticking_env [good_image; good_image] UPLOAD_DIR
           fresh_world batch _ Hrun).
  intros i j Hi Hj. cbn in Hi, Hj.
  assert (Hi' : i = 0%nat ∨ i = 1%nat) by lia.
  assert (Hj' : j = 0%nat ∨ j = 1%nat) by lia.
  destruct Hi' as [-> | ->], Hj' as [-> | ->];
    (split; [vm_compute; reflexivity|]); first [reflexivity | vm_compute; discriminate].
Defined.

(** A batch with one valid and one invalid image. *)
Lemma processImages_keeps_files_witness :
  ∃ batch w',
    processImages ticking_env [good_image; bad_image] UPLOAD_DIR (world_with [flat])
    = (Ok batch, w') ∧
    file w' = Stored [flat] ∧
    ∀ p, p ∈ Batch.processedImages batch → is_Some (uploads w' !! Processed.filepath p).
Proof.
  destruct (processImages_batch ticking_env [good_image; bad_image] UPLOAD_DIR
              (world_with [flat])) as (batch & Hrun & _).
  eexists batch, _. split; [exact Hrun|].
  destruct (processImages_keeps_files ticking_env [good_image; bad_image] UPLOAD_DIR
              (world_with [flat]) batch _ Hrun) as (Hfile & _ & Hsaved).
  split; [exact Hfile|exact Hsaved].
Defined.

(** A request with two valid images on a first run. *)
Lemma addProperty_creates_witness :
  ∃ saved processed w',
    addProperty ticking_env (listing_with [good_image; good_image]) fresh_world
    = (Ok (Created saved processed), w') ∧
    Processed.index <$> processed = [0%nat; 1%nat] ∧
    saved !! "location" = Some (VStr "Leeds") ∧
    collection w' = [saved].
Proof.
  destruct (addProperty_creates ticking_env (listing_with [good_image; good_image])
              fresh_world) as (saved & processed & w' & Hrun & Hidx & _ & Hkeys & Hc & _).
  - intros k. reflexivity.
  - intros img Hin. cbn in Hin.
    apply elem_of_cons in Hin as [-> | Hin]; [vm_compute; reflexivity|].
    apply elem_of_cons in Hin as [-> | Hin]; [vm_compute; reflexivity|].
    by apply elem_of_nil in Hin.
  - exists saved, processed, w'. split; [exact Hrun|]. split; [exact Hidx|]. split.
    + rewrite Hkeys by discriminate. vm_compute. reflexivity.
    + exact Hc.
Defined.

(** A request without images on a full disk: the save fails and the file,
    which held one record, is left empty. *)
Lemma addProperty_all_or_nothing_witness :
  ∃ w',
    addProperty full_disk_env {| attributes := flat; images := None |}
      (world_with [listed_flat])
    = (Ok (ServerError "Failed to process property submission: Failed to save property"),
       w') ∧
    (file w' = Stored [listed_flat]
     ∨ ∃ remains, file w' = Unreadable (json_error full_disk_env remains)).
Proof.
  destruct (addProperty_all_or_nothing full_disk_env {| attributes := flat; images := None |}
              (world_with [listed_flat])) as (response & w' & Hrun & Hpost).
  - intros stored _. apply (bool_decide_unpack _). vm_compute. exact I.
  - assert (Hfst : (addProperty full_disk_env {| attributes := flat; images := None |}
                      (world_with [listed_flat])).1
                   = Ok (ServerError
                           "Failed to process property submission: Failed to save property"))
      by (vm_compute; reflexivity).
    rewrite Hrun in Hfst. injection Hfst as ->.
    destruct Hpost as (_ & _ & Hfile). exists w'. split; [exact Hrun|exact Hfile].
Defined.

(** The second of two listed records, looked up. *)
Lemma getProperty_reply_witness :
  getProperty ticking_env "PROP_2" (world_with [listed_flat; listed_villa])
  = (Ok (Found listed_villa), world_with [listed_flat; listed_villa]).
Proof.
  assert (Hd : DATA_DIR ∈ dirs (world_with [listed_flat; listed_villa]))
    by (apply (bool_decide_unpack _); vm_compute; exact I).
  pose proof (getProperty_reply ticking_env "PROP_2" (world_with [listed_flat; listed_villa])
                [listed_flat; listed_villa] eq_refl Hd) as Hreply.
  assert (Hfind : List.find (has_id "PROP_2") [listed_flat; listed_villa] = Some listed_villa)
    by (vm_compute; reflexivity).
  rewrite Hfind in Hreply. exact Hreply.
Defined.

(** The first of two listed records, deleted on a healthy disk. *)
Lemma deletePropertyById_reply_witness :
  ∃ w',
    deletePropertyById ticking_env "PROP_1" (world_with [listed_flat; listed_villa])
    = (Ok Deleted, w') ∧
    file w' = Stored [listed_villa] ∧
    getProperty ticking_env "PROP_1" w' = (Ok NotFound, w').
Proof.
  assert (Hd : DATA_DIR ∈ dirs (world_with [listed_flat; listed_villa]))
    by (apply (bool_decide_unpack _); vm_compute; exact I).
  pose proof (deletePropertyById_reply ticking_env "PROP_1"
                (world_with [listed_flat; listed_villa])
                [listed_flat; listed_villa] eq_refl Hd) as Hreply.
  cbv zeta in Hreply.
  assert (Hfind : List.find (has_id "PROP_1") [listed_flat; listed_villa] = Some listed_flat)
    by (vm_compute; reflexivity).
  rewrite Hfind in Hreply.
  change (fault_at ticking_env _) with (@None string) in Hreply.
  destruct Hreply as (w' & Hrun & Hfile & Hget).
  exists w'. split; [exact Hrun|]. split; [|exact Hget].
  rewrite Hfile. f_equal.
Defined.

(** A new price for the first of two listed records, on a healthy disk. *)
Lemma updatePropertyById_reply_witness :
  ∃ merged w',
    updatePropertyById ticking_env "PROP_1" new_price (world_with [listed_flat; listed_villa])
    = (Ok (Updated merged), w') ∧
    merged !! "price" = Some (VNum 500) ∧
    file w' = Stored [merged; listed_villa].
Proof.
  assert (Hd : DATA_DIR ∈ dirs (world_with [listed_flat; listed_villa]))
    by (apply (bool_decide_unpack _); vm_compute; exact I).
  pose proof (updatePropertyById_reply ticking_env "PROP_1" new_price
                (world_with [listed_flat; listed_villa])
                [listed_flat; listed_villa] eq_refl Hd) as Hreply.
  assert (Hfind : list_find (λ prop, has_id "PROP_1" prop = true) [listed_flat; listed_villa]
                  = Some (0%nat, listed_flat))
    by (vm_compute; reflexivity).
  rewrite Hfind in Hreply. cbv zeta in Hreply.
  change (fault_at ticking_env _) with (@None string) in Hreply.
  destruct Hreply as (w' & Hrun & Hfile).
  eexists _, w'. split; [exact Hrun|]. split; [vm_compute; reflexivity|exact Hfile].
Defined.

(** A full disk and two listed records: a delete or an update of the first
    loses both. *)
Lemma torn_write_loses_collection_witness :
  (∃ w', deletePropertyById full_disk_env "PROP_1" (world_with [listed_flat; listed_villa])
         = (Ok NotFound, w') ∧
         file w' = Unreadable "Unexpected end of JSON input" ∧
         (getAllProperties full_disk_env w').1 = Ok [] ∧
         ∀ other, (getProperty full_disk_env other w').1 = Ok NotFound) ∧
  (∃ w', updatePropertyById full_disk_env "PROP_1" new_price
           (world_with [listed_flat; listed_villa])
         = (Ok (Failed "Failed to update property: Failed to update property"), w') ∧
         file w' = Unreadable "Unexpected end of JSON input" ∧
         (getAllProperties full_disk_env w').1 = Ok [] ∧
         ∀ other, (getProperty full_disk_env other w').1 = Ok NotFound).
Proof.
  apply (torn_write_loses_collection full_disk_env "PROP_1" new_price
           (world_with [listed_flat; listed_villa]) [listed_flat; listed_villa]
           "ENOSPC: no space left on device" "").
  - reflexivity.
  - apply (bool_decide_unpack _). vm_compute. exact I.
  - exists listed_flat. split; [apply list_elem_of_here|vm_compute; reflexivity].
  - reflexivity.
  - reflexivity.
Defined.
